(** * Semantic text toolkit: vector mathematics and the similarity index

    A shallow embedding of [utils/vector.ts] (dot product, magnitude, cosine
    similarity, Euclidean distance, normalisation, centroid, top-k selection)
    and of the [SemanticSearch] class of [search/SemanticSearch.ts], together
    with the properties the specification states about them.

    JavaScript numbers are IEEE-754 binary64 values; they are modelled by
    Rocq's primitive floats, whose operations are the same binary64
    operations (round to nearest, ties to even).  Array lengths and ranks
    are natural numbers, the [k] of [topKSimilar] ranges over the integers
    (the specification's "positive integer" [topK]). *)

From Stdlib Require Import ZArith Floats Uint63 Lia.
From stdpp Require Import base option list sorting gmap strings pretty.

#[local] Open Scope string_scope.

(** ** Errors ([types/index.ts]) *)

Inductive SemanticErrorCode :=
  | MODEL_NOT_LOADED
  | INVALID_INPUT
  | EMBEDDING_FAILED
  | COMPUTATION_FAILED
  | DIMENSION_MISMATCH.

(** The [details] payloads that the modelled code attaches to an error. *)
Inductive Details :=
  | DDimensions (a b : nat)        (* { dimensions: [a.length, b.length] } *)
  | DLength (n : nat)              (* { length: embedding?.length } *)
  | DMagnitudes (magA magB : float) (* { magnitudes: [magA, magB] } *)
  | DK (k : Z).                    (* { k } *)

Record SemanticError := mkSemanticError {
  code : SemanticErrorCode;
  message : string;
  details : option Details
}.

(** A call either returns a value or throws. *)
Inductive result (A : Type) :=
  | Ok (a : A)
  | Err (e : SemanticError).
Arguments Ok {A} a.
Arguments Err {A} e.

Definition rbind {A B} (r : result A) (k : A -> result B) : result B :=
  match r with
  | Ok a => k a
  | Err e => Err e
  end.

Notation "x <-! r ; k" := (rbind r (fun x => k))
  (at level 100, r at next level, right associativity, only parsing).
Notation "r ;;! k" := (rbind r (fun _ => k))
  (at level 100, right associativity, only parsing).

Definition is_err {A} (r : result A) (c : SemanticErrorCode) : Prop :=
  exists e, r = Err e /\ code e = c.

(** ** Vector mathematics ([utils/vector.ts]) *)

Definition Embedding := list float.

(** [n] as a JavaScript number (array lengths are far below 2^53). *)
Definition of_nat (n : nat) : float := PrimFloat.of_uint63 (Uint63.of_Z (Z.of_nat n)).

(** [v[i]]: reading past the end gives [undefined], which arithmetic turns
    into NaN. *)
Definition get (v : Embedding) (i : nat) : float := nth i v nan.

Definition validateDimensions (a b : Embedding) : result unit :=
  if negb (length a =? length b)%nat then
    Err (mkSemanticError DIMENSION_MISMATCH
           ("Embedding dimensions must match. Got " +:+ pretty (length a)
              +:+ " and " +:+ pretty (length b))
           (Some (DDimensions (length a) (length b))))
  else Ok tt.

Definition validateEmbedding (embedding : Embedding) (name : string) : result unit :=
  if (length embedding =? 0)%nat then
    Err (mkSemanticError INVALID_INPUT
           (name +:+ " must be a non-empty array")
           (Some (DLength (length embedding))))
  else Ok tt.

Definition dotProduct (a b : Embedding) : result float :=
  validateEmbedding a "first embedding" ;;!
  validateEmbedding b "second embedding" ;;!
  validateDimensions a b ;;!
  Ok (fold_left (fun sum i => sum + get a i * get b i)%float
        (seq 0 (length a)) 0%float).

Definition magnitude (vector : Embedding) : result float :=
  validateEmbedding vector "embedding" ;;!
  Ok (PrimFloat.sqrt
        (fold_left (fun sum i => sum + get vector i * get vector i)%float
           (seq 0 (length vector)) 0%float)).

Definition cosineSimilarity (a b : Embedding) : result float :=
  validateEmbedding a "first embedding" ;;!
  validateEmbedding b "second embedding" ;;!
  validateDimensions a b ;;!
  dot <-! dotProduct a b;
  magA <-! magnitude a;
  magB <-! magnitude b;
  if (magA =? 0)%float || (magB =? 0)%float then
    Err (mkSemanticError COMPUTATION_FAILED
           "Cannot compute cosine similarity with zero-magnitude vector"
           (Some (DMagnitudes magA magB)))
  else Ok (dot / (magA * magB))%float.

Definition euclideanDistance (a b : Embedding) : result float :=
  validateEmbedding a "first embedding" ;;!
  validateEmbedding b "second embedding" ;;!
  validateDimensions a b ;;!
  Ok (PrimFloat.sqrt
        (fold_left (fun sum i => let diff := (get a i - get b i)%float in
                                 (sum + diff * diff)%float)
           (seq 0 (length a)) 0%float)).

Definition normalize (vector : Embedding) : result Embedding :=
  validateEmbedding vector "embedding" ;;!
  mag <-! magnitude vector;
  if (mag =? 0)%float then
    Err (mkSemanticError COMPUTATION_FAILED
           "Cannot normalize zero-magnitude vector" None)
  else Ok (map (fun v => v / mag)%float vector).

(** The accumulation loop of [centroid]: one pass of the outer [for ... of]
    for every embedding, the inner loop adding it into [result] component by
    component. *)
Definition centroid_add (dim : nat) (acc : list float) (embedding : Embedding)
  : list float :=
  fold_left (fun r i => <[i := (get r i + get embedding i)%float]> r)
    (seq 0 dim) acc.

Fixpoint centroid_loop (dim : nat) (acc : list float) (embeddings : list Embedding)
  : result (list float) :=
  match embeddings with
  | [] => Ok acc
  | embedding :: rest =>
      if negb (length embedding =? dim)%nat then
        Err (mkSemanticError DIMENSION_MISMATCH
               "All embeddings must have same dimensions" None)
      else centroid_loop dim (centroid_add dim acc embedding) rest
  end.

Definition centroid (embeddings : list Embedding) : result Embedding :=
  match embeddings with
  | [] =>
      Err (mkSemanticError INVALID_INPUT
             "Cannot compute centroid of empty array" None)
  | first :: _ =>
      let dim := length first in
      acc <-! centroid_loop dim (replicate dim 0%float) embeddings;
      Ok (map (fun v => v / of_nat (length embeddings))%float acc)
  end.

(** *** Top-k selection *)

(** [Array.prototype.sort(comparefn)].  ECMAScript requires the sort to be
    stable and reads a NaN returned by the comparator as [+0]; for a
    consistent comparator the result is then unique, and it is the one this
    insertion sort computes: an element moves behind a later one only when
    the comparator is strictly positive on them.  (For an inconsistent
    comparator ECMAScript leaves the order to the implementation.) *)
Section ArraySort.
Context {A : Type} (comparefn : A -> A -> float).

Definition SortCompare (x y : A) : float :=
  let v := comparefn x y in
  if PrimFloat.is_nan v then 0%float else v.

Fixpoint sort_insert (x : A) (l : list A) : list A :=
  match l with
  | [] => [x]
  | y :: l' =>
      if (0 <? SortCompare x y)%float then y :: sort_insert x l'
      else x :: y :: l'
  end.

Definition Array_sort (l : list A) : list A := foldr sort_insert [] l.
End ArraySort.

(** [Array.prototype.slice(start, end)] with integer arguments; a negative
    argument counts from the end. *)
Definition slice {A} (start end_ : Z) (l : list A) : list A :=
  let len := Z.of_nat (length l) in
  let from := if (start <? 0)%Z then Z.max (len + start) 0 else Z.min start len in
  let to := if (end_ <? 0)%Z then Z.max (len + end_) 0 else Z.min end_ len in
  take (Z.to_nat (to - from)) (drop (Z.to_nat from) l).

(** The score [topKSimilar] gives a candidate: its cosine similarity with the
    query, or [-Infinity] when [cosineSimilarity] throws. *)
Definition similarity (query candidate : Embedding) : float :=
  match cosineSimilarity query candidate with
  | Ok s => s
  | Err _ => neg_infinity
  end.

Definition topKSimilar (query : Embedding) (candidates : list Embedding) (k : Z)
  : result (list (nat * float)) :=
  validateEmbedding query "query" ;;!
  if (length candidates =? 0)%nat then Ok []
  else if (k <=? 0)%Z then
    Err (mkSemanticError INVALID_INPUT "k must be positive" (Some (DK k)))
  else
    let similarities :=
      imap (fun idx candidate => (idx, similarity query candidate)) candidates in
    let sorted := Array_sort (fun a b => (b.2 - a.2)%float) similarities in
    Ok (slice 0 (Z.min k (Z.of_nat (length sorted))) sorted).

(** ** The embedding engine ([engine/SemanticEngine.ts], an external
    collaborator): only the two calls the index makes, each returning a
    result or throwing. *)

Module EmbeddingResult.
Record t := mk { embedding : Embedding; text : string }.
End EmbeddingResult.

Record SemanticEngine := {
  embed : string -> result EmbeddingResult.t;
  embedBatch : list string -> result (list EmbeddingResult.t)
}.

(** ** The object store

    JavaScript arrays and objects are mutable and shared by reference.  The
    store maps a reference to the object it denotes; the objects are those
    the index touches. *)

Definition loc := positive.

(** The scalar values a metadata record holds. *)
Inductive value :=
  | VUndefined
  | VNull
  | VBool (b : bool)
  | VNumber (n : float)
  | VString (s : string).

Inductive object (T : Type) :=
  | ItemArray (items : list loc)  (* IndexedItem<T>[]: references to records *)
  | Item (item : T) (embedding : loc) (metadata : option loc) (* IndexedItem<T> *)
  | NumberArray (v : list float)  (* Embedding *)
  | Metadata (m : gmap string value). (* Record<string, unknown> *)
Arguments ItemArray {T} items.
Arguments Item {T} item embedding metadata.
Arguments NumberArray {T} v.
Arguments Metadata {T} m.

(** What a stored record denotes once its references are followed. *)
Module IndexedItem.
Record t (T : Type) := mk {
  item : T;
  embedding : Embedding;
  metadata : option (gmap string value)
}.
Arguments mk {T} item embedding metadata.
Arguments item {T} _.
Arguments embedding {T} _.
Arguments metadata {T} _.
End IndexedItem.

Module SearchResult.
Record t (T : Type) := mk { item : T; score : float; rank : nat }.
Arguments mk {T} item score rank.
Arguments item {T} _.
Arguments score {T} _.
Arguments rank {T} _.
End SearchResult.

Record SearchConfig (T : Type) := {
  topK : Z;
  threshold : float;
  textExtractor : T -> string;
  metadataExtractor : T -> gmap string value
}.
Arguments topK {T} _.
Arguments threshold {T} _.
Arguments textExtractor {T} _.
Arguments metadataExtractor {T} _.

(** [Partial<SearchConfig<T>>]: every field may be absent. *)
Record PartialSearchConfig (T : Type) := {
  topK_opt : option Z;
  threshold_opt : option float;
  textExtractor_opt : option (T -> string);
  metadataExtractor_opt : option (T -> gmap string value)
}.
Arguments topK_opt {T} _.
Arguments threshold_opt {T} _.
Arguments textExtractor_opt {T} _.
Arguments metadataExtractor_opt {T} _.

(** The fields of a [SemanticSearch] instance; [indexedItems] holds a
    reference to an array in the store. *)
Record SemanticSearch (T : Type) := {
  engine : SemanticEngine;
  indexedItems : loc;
  config : SearchConfig T
}.
Arguments engine {T} _.
Arguments indexedItems {T} _.
Arguments config {T} _.

Record state (T : Type) := {
  heap : gmap loc (object T);
  this : SemanticSearch T
}.
Arguments heap {T} _.
Arguments this {T} _.

(** What a method call throws: a [SemanticError], the runtime's [TypeError]
    on reading a property of [undefined], or its [RangeError] on a call with
    more arguments than it accepts. *)
Inductive exn :=
  | Semantic (e : SemanticError)
  | TypeError
  | RangeError.

Inductive outcome (A : Type) :=
  | Returned (a : A)
  | Thrown (x : exn).
Arguments Returned {A} a.
Arguments Thrown {A} x.

(** ** Method bodies as store-passing computations

    A computation runs in a state, and either gets stuck ([None]: it followed
    a reference that denotes no object of the expected kind, which typed code
    never does) or ends, by returning or throwing, in a new state. *)

Section Methods.
Context {T : Type}.

Definition M (A : Type) : Type := state T -> option (outcome A * state T).

Definition ret {A} (a : A) : M A := fun s => Some (Returned a, s).

Definition throw {A} (x : exn) : M A := fun s => Some (Thrown x, s).

Definition bind {A B} (m : M A) (k : A -> M B) : M B :=
  fun s =>
    match m s with
    | None => None
    | Some (Returned a, s') => k a s'
    | Some (Thrown x, s') => Some (Thrown x, s')
    end.

Notation "x <~ m ; k" := (bind m (fun x => k))
  (at level 100, m at next level, right associativity, only parsing).
Notation "m ;;~ k" := (bind m (fun _ => k))
  (at level 100, right associativity, only parsing).

(** [try { body } finally { cleanup }]. *)
Definition try_finally {A} (body : M A) (cleanup : M unit) : M A :=
  fun s =>
    match body s with
    | None => None
    | Some (r, s') =>
        match cleanup s' with
        | None => None
        | Some (Returned _, s'') => Some (r, s'')
        | Some (Thrown x, s'') => Some (Thrown x, s'')
        end
    end.

(** A call of a vector function or of the engine. *)
Definition call {A} (r : result A) : M A :=
  match r with
  | Ok a => ret a
  | Err e => throw (Semantic e)
  end.

Definition stuck {A} : M A := fun _ => None.

(** The outcome of a computation that leaves the state alone. *)
Definition finish {A} (o : outcome A) : M A := fun s => Some (o, s).

Definition get_this : M (SemanticSearch T) := fun s => Some (Returned (this s), s).

(** [this.indexedItems = l]. *)
Definition set_indexedItems (l : loc) : M unit :=
  fun s =>
    Some (Returned tt,
          {| heap := heap s;
             this := {| engine := engine (this s);
                        indexedItems := l;
                        config := config (this s) |} |}).

(** A new object, at a reference not in use. *)
Definition alloc (o : object T) : M loc :=
  fun s =>
    let l := fresh (dom (heap s)) in
    Some (Returned l, {| heap := <[l := o]> (heap s); this := this s |}).

(** In-place update of the object behind a reference. *)
Definition store (l : loc) (o : object T) : M unit :=
  fun s => Some (Returned tt, {| heap := <[l := o]> (heap s); this := this s |}).

Definition read_array (h : gmap loc (object T)) (l : loc) : option (list loc) :=
  match h !! l with
  | Some (ItemArray rs) => Some rs
  | _ => None
  end.

Definition read_numbers (h : gmap loc (object T)) (l : loc) : option (list float) :=
  match h !! l with
  | Some (NumberArray v) => Some v
  | _ => None
  end.

Definition read_metadata (h : gmap loc (object T)) (l : loc)
  : option (gmap string value) :=
  match h !! l with
  | Some (Metadata m) => Some m
  | _ => None
  end.

(** A record with its embedding and metadata read through. *)
Definition read_item (h : gmap loc (object T)) (r : loc)
  : option (IndexedItem.t T) :=
  match h !! r with
  | Some (Item it e md) =>
      v ← read_numbers h e;
      m ← match md with
          | Some l => Some <$> read_metadata h l
          | None => Some None
          end;
      Some (IndexedItem.mk it v m)
  | _ => None
  end.

Definition read_items (h : gmap loc (object T)) (l : loc)
  : option (list (IndexedItem.t T)) :=
  rs ← read_array h l; mapM (read_item h) rs.

(** The items the index holds: the array behind [this.indexedItems], read
    through to the numbers and the metadata. *)
Definition stored (s : state T) : option (list (IndexedItem.t T)) :=
  read_items (heap s) (indexedItems (this s)).

Definition stored_embeddings (s : state T) : option (list Embedding) :=
  match stored s with
  | Some items => Some (map IndexedItem.embedding items)
  | None => None
  end.

Definition stored_items (s : state T) : option (list T) :=
  match stored s with
  | Some items => Some (map IndexedItem.item items)
  | None => None
  end.

Definition load {A} (f : gmap loc (object T) -> option A) : M A :=
  fun s => match f (heap s) with
           | Some a => Some (Returned a, s)
           | None => None
           end.

(** [for (const x of xs) ...] collecting results. *)
Fixpoint for_each {A B} (f : nat -> A -> M B) (idx : nat) (xs : list A) : M (list B) :=
  match xs with
  | [] => ret []
  | x :: rest =>
      y <~ f idx x;
      ys <~ for_each f (S idx) rest;
      ret (y :: ys)
  end.

(** *** [constructor] *)

(** A new instance, its empty array allocated in the store [h].  [String] is
    the conversion [String(item)] of the default text extractor. *)
Definition constructor (String : T -> string) (engine : SemanticEngine)
    (config : PartialSearchConfig T) (h : gmap loc (object T)) : state T :=
  let l := fresh (dom h) in
  {| heap := <[l := ItemArray []]> h;
     this := {| engine := engine;
                indexedItems := l;
                config := {| topK := default 10%Z (topK_opt config);
                             threshold := default 0%float (threshold_opt config);
                             textExtractor := default String (textExtractor_opt config);
                             metadataExtractor :=
                               default (fun _ => ∅) (metadataExtractor_opt config) |} |} |}.

(** *** [index] *)

(** [items] is a list, so the [Array.isArray] half of the first test holds.
    The engine's results carry new arrays and the metadata extractor
    returns a new object: both are allocated where the record is built.

    The last statement, [this.indexedItems.push(...newIndexItems)], is a
    call with one argument per new record.  The language sets no bound on
    the number of arguments of a call; a runtime does, and throws a
    [RangeError] before the call when the spread exceeds it, so that nothing
    is pushed.  [max_arguments] is the number of arguments the runtime
    accepts in that call. *)
Definition index (max_arguments : nat) (items : list T) (replace : bool) : M unit :=
  if (length items =? 0)%nat then
    throw (Semantic (mkSemanticError INVALID_INPUT
                       "Items must be a non-empty array" None))
  else
    (if replace then
       (l <~ alloc (ItemArray []); set_indexedItems l)
     else ret tt) ;;~
    self <~ get_this;
    let texts := map (textExtractor (config self)) items in
    results <~ call (embedBatch (engine self) texts);
    newIndexItems <~
      for_each (fun idx item =>
                  match results !! idx with
                  | None => throw TypeError
                  | Some r =>
                      e <~ alloc (NumberArray (EmbeddingResult.embedding r));
                      m <~ alloc (Metadata (metadataExtractor (config self) item));
                      alloc (Item item e (Some m))
                  end) 0 items;
    self <~ get_this;
    rs <~ load (fun h => read_array h (indexedItems self));
    if (length newIndexItems <=? max_arguments)%nat then
      store (indexedItems self) (ItemArray (rs ++ newIndexItems))
    else throw RangeError.

(** *** [search] *)

(** [{ ...this.config, ...overrideConfig }] *)
Definition merge (c : SearchConfig T) (o : PartialSearchConfig T) : SearchConfig T :=
  {| topK := default (topK c) (topK_opt o);
     threshold := default (threshold c) (threshold_opt o);
     textExtractor := default (textExtractor c) (textExtractor_opt o);
     metadataExtractor := default (metadataExtractor c) (metadataExtractor_opt o) |}.

(** The loop over [topK]: [rank] is the counter, [results] the array being
    filled.  It touches nothing but its own variables. *)
Fixpoint search_loop (items : list (IndexedItem.t T)) (threshold : float)
    (topK : list (nat * float)) (rank : nat) (results : list (SearchResult.t T))
  : outcome (list (SearchResult.t T)) :=
  match topK with
  | [] => Returned results
  | (idx, score) :: rest =>
      if (score <? threshold)%float then
        search_loop items threshold rest rank results
      else
        match items !! idx with
        | None => Thrown TypeError
        | Some it =>
            search_loop items threshold rest (S rank)
              (results ++ [SearchResult.mk (IndexedItem.item it) score rank])
        end
  end.

Definition empty_index_error : SemanticError :=
  mkSemanticError INVALID_INPUT
    "Index is empty. Call index() before searching." None.

Definition search (query : string) (overrideConfig : PartialSearchConfig T)
  : M (list (SearchResult.t T)) :=
  self <~ get_this;
  items <~ load (fun h => read_items h (indexedItems self));
  if (length items =? 0)%nat then throw (Semantic empty_index_error)
  else
    let config := merge (config self) overrideConfig in
    queryResult <~ call (embed (engine self) query);
    let candidateEmbeddings := map IndexedItem.embedding items in
    topK <~ call (topKSimilar (EmbeddingResult.embedding queryResult)
                    candidateEmbeddings (topK config));
    finish (search_loop items (threshold config) topK 1 []).

(** *** [searchWithFilter] *)

(** [item => filter(item.metadata ?? {})] on the record behind [r]. *)
Definition filter_item (filter : gmap string value -> bool)
    (h : gmap loc (object T)) (r : loc) : option bool :=
  it ← read_item h r;
  Some (filter (default ∅ (IndexedItem.metadata it))).

Fixpoint array_filter (filter : gmap string value -> bool)
    (h : gmap loc (object T)) (rs : list loc) : option (list loc) :=
  match rs with
  | [] => Some []
  | r :: rest =>
      b ← filter_item filter h r;
      kept ← array_filter filter h rest;
      Some (if b : bool then r :: kept else kept)
  end.

Definition searchWithFilter (query : string) (filter : gmap string value -> bool)
    (config : PartialSearchConfig T) : M (list (SearchResult.t T)) :=
  self <~ get_this;
  let originalIndex := indexedItems self in
  kept <~ load (fun h => rs ← read_array h originalIndex; array_filter filter h rs);
  l <~ alloc (ItemArray kept);
  set_indexedItems l ;;~
  try_finally (search query config) (set_indexedItems originalIndex).

(** *** [findSimilar], [clear], [exportIndex], [importIndex] *)

Definition findSimilar (item : T) (config_ : PartialSearchConfig T)
  : M (list (SearchResult.t T)) :=
  self <~ get_this;
  let text := textExtractor (config self) item in
  search text config_.

Definition clear : M unit :=
  l <~ alloc (ItemArray []); set_indexedItems l.

(** [return [...this.indexedItems]]: a new array holding the same record
    references. *)
Definition exportIndex : M loc :=
  self <~ get_this;
  rs <~ load (fun h => read_array h (indexedItems self));
  alloc (ItemArray rs).

(** [this.indexedItems = [...index]] *)
Definition importIndex (index : loc) : M unit :=
  rs <~ load (fun h => read_array h index);
  l <~ alloc (ItemArray rs);
  set_indexedItems l.

(** *** What a caller can do to the objects it holds *)

(** Any in-place change of an array of records ([push], [pop], [splice],
    assignment to an element or to [length]) leaves some list of references
    behind the same array reference. *)
Definition array_assign (arr : loc) (rs : list loc) : M unit :=
  load (fun h => read_array h arr) ;;~ store arr (ItemArray rs).

(** [v[j] = x]: an assignment past the end extends the array, the holes
    reading as [undefined] (NaN once used in arithmetic). *)
Definition array_set (v : list float) (j : nat) (x : float) : list float :=
  if (j <? length v)%nat then <[j := x]> v
  else v ++ replicate (j - length v) nan ++ [x].

(** [arr[i].embedding[j] = x] *)
Definition embedding_assign (arr : loc) (i j : nat) (x : float) : M unit :=
  rs <~ load (fun h => read_array h arr);
  match rs !! i with
  | None => throw TypeError
  | Some r =>
      o <~ load (fun h => h !! r);
      match o with
      | Item _ e _ =>
          v <~ load (fun h => read_numbers h e);
          store e (NumberArray (array_set v j x))
      | _ => stuck
      end
  end.

(** A reference that denotes nothing, or an array of records: writing
    there touches no record, embedding or metadata. *)
Definition free_or_array (h : gmap loc (object T)) (x : loc) : Prop :=
  h !! x = None \/ exists rs, h !! x = Some (ItemArray rs).

End Methods.

(** ** [getStats]

    [totalBytes] is a product of array lengths, exact in binary64 below
    2^53, and dividing it by 1024 or 1024^2 is exact as well; so
    [toFixed(2)] is applied to the exact quotient [num / den], and prints
    the integer nearest to a hundred times it (the larger one on a tie)
    with a point before its last two digits. *)

Definition toFixed2 (num den : N) : string :=
  let n := ((200 * num + den) / (2 * den))%N in
  pretty (n / 100)%N +:+ "." +:+ pretty (n mod 100 / 10)%N +:+ pretty (n mod 10)%N.

Record Stats := {
  itemCount : nat;
  dimensions : nat;
  memoryEstimate : string
}.

Section GetStats.
Context {T : Type}.

(** [this.indexedItems[0]?.embedding.length ?? 0] *)
Definition first_dimensions (h : gmap loc (object T)) (rs : list loc) : option nat :=
  match rs !! 0 with
  | None => Some 0
  | Some r =>
      match h !! r with
      | Some (Item _ e _) => length <$> read_numbers h e
      | _ => None
      end
  end.

Definition getStats : M (T := T) Stats :=
  bind get_this (fun self =>
  bind (load (fun h => read_array h (indexedItems self))) (fun rs =>
  let itemCount := length rs in
  bind (load (fun h => first_dimensions h rs)) (fun dimensions =>
  let totalBytes := (N.of_nat itemCount * N.of_nat dimensions * 8)%N in
  let memoryEstimate :=
    if (totalBytes <? 1024 * 1024)%N then toFixed2 totalBytes 1024 +:+ " KB"
    else toFixed2 totalBytes (1024 * 1024) +:+ " MB" in
  ret {| itemCount := itemCount;
         dimensions := dimensions;
         memoryEstimate := memoryEstimate |}))).

End GetStats.

(** ** [createSemanticSearch] ([index.ts])

    [engine] is what [createSemanticEngine()] resolved to (that function
    constructs and initializes the engine class, which is outside this
    development); the new instance is built in the store [h] and returned
    once the items are indexed. *)
Definition createSemanticSearch {T} (max_arguments : nat) (String : T -> string)
    (engine : SemanticEngine) (items : list T) (config : PartialSearchConfig T)
    (h : gmap loc (object T))
  : option (outcome (SemanticSearch T) * state T) :=
  let search := constructor String engine config h in
  match index max_arguments items false search with
  | Some (Returned _, s) => Some (Returned (this s), s)
  | Some (Thrown x, s) => Some (Thrown x, s)
  | None => None
  end.

(** ** A concrete engine and index, for the examples

    The engine rejects empty text, as the real one does, and otherwise
    embeds a text as the pair of its length and 1. *)

Definition example_embedding (text : string) : EmbeddingResult.t :=
  EmbeddingResult.mk [of_nat (String.length text); 1%float] text.

Definition example_engine : SemanticEngine := {|
  embed text :=
    if String.eqb text "" then
      Err (mkSemanticError INVALID_INPUT "Text must be a non-empty string" None)
    else Ok (example_embedding text);
  embedBatch texts :=
    if existsb (String.eqb "") texts then
      Err (mkSemanticError INVALID_INPUT "Text must be a non-empty string" None)
    else Ok (map example_embedding texts)
|}.

Definition no_override {T} : PartialSearchConfig T :=
  {| topK_opt := None; threshold_opt := None;
     textExtractor_opt := None; metadataExtractor_opt := None |}.

Definition example_empty : state string :=
  constructor id example_engine no_override ∅.

(** The state a computation ends in ([s] itself when it is stuck). *)
Definition exec {T A} (m : M A) (s : state T) : state T :=
  match m s with
  | Some (_, s') => s'
  | None => s
  end.

(** A runtime that accepts a thousand arguments in a call. *)
Definition example_max_arguments : nat := 1000.

(** The index after [index(['a', 'bbb', 'cc'])]. *)
Definition example_index : state string :=
  exec (index example_max_arguments ["a"; "bbb"; "cc"] false) example_empty.

Definition example_items : list (IndexedItem.t string) :=
  [IndexedItem.mk "a" [1; 1]%float (Some ∅);
   IndexedItem.mk "bbb" [3; 1]%float (Some ∅);
   IndexedItem.mk "cc" [2; 1]%float (Some ∅)].

(** A query scored against [example_index], with a threshold that drops the
    last entry. *)
Definition example_override : PartialSearchConfig string :=
  {| topK_opt := Some 5%Z; threshold_opt := Some 0.96875%float;
     textExtractor_opt := None; metadataExtractor_opt := None |}.

Definition example_topK : list (nat * float) :=
  Eval vm_compute in
    match topKSimilar (EmbeddingResult.embedding (example_embedding "ab"))
            (map IndexedItem.embedding example_items) 5 with
    | Ok tk => tk
    | Err _ => []
    end.

(** An engine with degenerate batch embeddings: the zero vector for the
    text "a", an infinite one for any other.  Against the query embedding
    [1] the first has no similarity (the score is -Infinity) and the second
    scores NaN; the comparison of the two is NaN either way, which the sort
    reads as 0, so they stay in candidate order. *)
Definition example_degenerate_engine : SemanticEngine := {|
  embed text := Ok (EmbeddingResult.mk [1%float] text);
  embedBatch texts :=
    Ok (map (fun text =>
               EmbeddingResult.mk
                 (if String.eqb text "a" then [0%float] else [infinity]) text)
          texts)
|}.

(** The index after [index(['a', 'b'])] with that engine. *)
Definition example_degenerate_index : state string :=
  exec (index example_max_arguments ["a"; "b"] false)
    (constructor id example_degenerate_engine no_override ∅).

Definition example_degenerate_items : list (IndexedItem.t string) :=
  [IndexedItem.mk "a" [0%float] (Some ∅);
   IndexedItem.mk "b" [infinity] (Some ∅)].

(** Two calls agree: they return the same value, or both throw, with the
    same error code. *)
Definition same_outcome {A} (r r' : result A) : Prop :=
  match r, r' with
  | Ok x, Ok y => x = y
  | Err e, Err e' => code e = code e'
  | _, _ => False
  end.

(** ** Orderings

    Scores are compared with the binary64 comparisons.  A list of scores is
    descending when no score is followed by a greater one; in the result of
    a top-k selection an entry precedes another when its score is greater,
    or the scores are equal and it comes from an earlier candidate. *)

Definition descending (l : list float) : Prop :=
  forall i x y, l !! i = Some x -> l !! S i = Some y -> (y <=? x)%float = true.

Definition precedes (a b : nat * float) : Prop :=
  (b.2 <? a.2)%float = true \/ ((a.2 =? b.2)%float = true /\ a.1 < b.1).

Definition no_nan (l : list (nat * float)) : Prop :=
  Forall (fun a => PrimFloat.is_nan a.2 = false) l.

(** The threshold test of [search]: an entry is dropped when its score is
    below the threshold, and kept otherwise. *)
Definition kept (threshold : float) (p : nat * float) : bool :=
  negb (p.2 <? threshold)%float.

(** *** The order of binary64 values, on their specification *)

(** A float that is not NaN, as a point of a linear order: its class (the
    infinities outermost, the zeros in the middle), then exponent and
    mantissa, both negated for a negative float. *)
Definition key (x : spec_float) : Z * Z * Z :=
  match x with
  | S754_zero _ => (0, 0, 0)
  | S754_infinity false => (2, 0, 0)
  | S754_infinity true => (-2, 0, 0)
  | S754_nan => (0, 0, 0)
  | S754_finite false m e => (1, e, Zpos m)
  | S754_finite true m e => (-1, - e, Zneg m)
  end%Z.

Definition lex_lt (k k' : Z * Z * Z) : Prop :=
  let '(a, b, c) := k in
  let '(a', b', c') := k' in
  (a < a' \/ (a = a' /\ (b < b' \/ (b = b' /\ c < c'))))%Z.

Definition has_sign (s : bool) (x : spec_float) : Prop :=
  match x with
  | S754_finite s' _ _ | S754_infinity s' => s' = s
  | _ => False
  end.

Definition aligned (s : bool) (m : positive) (e ez : Z) : Z :=
  cond_Zopp s (Zpos (fst (shl_align m e ez))).

Definition fkey (x : float) : Z * Z * Z := key (Prim2SF x).

(** * Properties *)

(** ** Examples from the test suite *)

Example dotProduct_ex :
  dotProduct [1; 2; 3]%float [4; 5; 6]%float = Ok 32%float.
Proof. reflexivity. Qed.

Example centroid_ex :
  centroid [[0; 0]; [2; 0]; [0; 2]; [2; 2]]%float = Ok [1; 1]%float.
Proof. vm_compute. reflexivity. Qed.

Example magnitude_ex : magnitude [3; 4]%float = Ok 5%float.
Proof. reflexivity. Qed.

Example validateDimensions_ex :
  validateDimensions [1; 2]%float [1; 2; 3; 4]%float =
  Err (mkSemanticError DIMENSION_MISMATCH
         "Embedding dimensions must match. Got 2 and 4"
         (Some (DDimensions 2 4))).
Proof. vm_compute. reflexivity. Qed.

Example topKSimilar_ex :
  topKSimilar [1; 0; 0]%float
    [[0; 1; 0]; [-1; 0; 0]; [1; 0; 0]; [1; 0]; [0; 2; 0]]%float 4
  = Ok [(2, 1%float); (0, 0%float); (4, 0%float); (1, (-1)%float)].
Proof. vm_compute. reflexivity. Qed.

Example cosineSimilarity_zero_ex :
  is_err (cosineSimilarity [0; 0]%float [1; 0]%float) COMPUTATION_FAILED.
Proof. eexists. split; reflexivity. Qed.

Example search_empty_index_ex :
  search "fruit" no_override example_empty
  = Some (Thrown (Semantic empty_index_error), example_empty).
Proof. vm_compute. reflexivity. Qed.

Example index_three_items_ex :
  length <$> stored (exec (index example_max_arguments ["a"; "b"; "c"] false)
                       example_empty)
  = Some 3.
Proof. vm_compute. reflexivity. Qed.

Example index_append_ex :
  stored_items (exec (index example_max_arguments ["dddd"] false) example_index)
  = Some ["a"; "bbb"; "cc"; "dddd"].
Proof. vm_compute. reflexivity. Qed.

Example index_replace_ex :
  stored_items (exec (index example_max_arguments ["X"; "Y"] true) example_index)
  = Some ["X"; "Y"].
Proof. vm_compute. reflexivity. Qed.

(** A batch larger than the runtime accepts as arguments of [push]. *)
Example index_too_many_arguments_ex :
  exists s',
    index 2 ["X"; "Y"; "Z"] false example_index = Some (Thrown RangeError, s') /\
    stored_items s' = Some ["a"; "bbb"; "cc"].
Proof. eexists. split; vm_compute; reflexivity. Qed.

Example export_clear_import_ex :
  match exportIndex example_index with
  | Some (Returned exported, s1) =>
      stored (exec clear s1) = Some [] /\
      stored (exec (importIndex exported) (exec clear s1)) = stored example_index
  | _ => False
  end.
Proof. vm_compute. split; reflexivity. Qed.

Example topKSimilar_mismatch_ex :
  topKSimilar [1; 0; 0]%float [[1; 0]; [1; 0; 0]; [0; 1]]%float 3
  = Ok [(1, 1%float); (0, neg_infinity); (2, neg_infinity)].
Proof. vm_compute. reflexivity. Qed.

(** ** Validation order in the pairwise operations *)

Lemma validateEmbedding_nonempty (v : Embedding) (name : string) :
  v <> [] -> validateEmbedding v name = Ok tt.
Proof. destruct v; [congruence | reflexivity]. Qed.

Lemma validateEmbedding_empty (name : string) :
  validateEmbedding [] name =
  Err (mkSemanticError INVALID_INPUT (name +:+ " must be a non-empty array")
         (Some (DLength 0))).
Proof. reflexivity. Qed.

Lemma validateDimensions_same (a b : Embedding) :
  length a = length b -> validateDimensions a b = Ok tt.
Proof.
  intros E. unfold validateDimensions.
  apply Nat.eqb_eq in E. rewrite E. reflexivity.
Qed.

Lemma validateDimensions_differ (a b : Embedding) :
  length a <> length b ->
  validateDimensions a b =
  Err (mkSemanticError DIMENSION_MISMATCH
         ("Embedding dimensions must match. Got " +:+ pretty (length a)
            +:+ " and " +:+ pretty (length b))
         (Some (DDimensions (length a) (length b)))).
Proof.
  intros E. unfold validateDimensions.
  apply Nat.eqb_neq in E. rewrite E. reflexivity.
Qed.

Lemma is_err_code {A} (r : result A) (c c' : SemanticErrorCode) :
  is_err r c -> c <> c' -> ~ is_err r c'.
Proof. intros (e & -> & Hc) Hne (e' & [= <-] & Hc'). congruence. Qed.

(** The three pairwise operations on unequal non-empty vectors: the error
    is the one [validateDimensions] builds, both lengths in its detail. *)
Lemma pairwise_dimension_mismatch (a b : Embedding) :
  a <> [] -> b <> [] -> length a <> length b ->
  let e := mkSemanticError DIMENSION_MISMATCH
             ("Embedding dimensions must match. Got " +:+ pretty (length a)
                +:+ " and " +:+ pretty (length b))
             (Some (DDimensions (length a) (length b))) in
  dotProduct a b = Err e /\
  cosineSimilarity a b = Err e /\
  euclideanDistance a b = Err e.
Proof.
  intros Ha Hb Hne e.
  unfold dotProduct, cosineSimilarity, euclideanDistance.
  rewrite !(validateEmbedding_nonempty a), !(validateEmbedding_nonempty b) by assumption.
  rewrite (validateDimensions_differ a b Hne). auto.
Qed.

Lemma centroid_loop_mismatch (dim : nat) (embeddings : list Embedding) :
  forall acc,
  Exists (fun v => length v <> dim) embeddings ->
  centroid_loop dim acc embeddings =
  Err (mkSemanticError DIMENSION_MISMATCH
         "All embeddings must have same dimensions" None).
Proof.
  induction embeddings as [|v vs IH]; intros acc Hex.
  - inversion Hex.
  - simpl. destruct (Nat.eqb_spec (length v) dim) as [E | E]; simpl.
    + apply IH. inversion Hex; subst; [congruence | assumption].
    + reflexivity.
Qed.

(** C4. [centroid] on vectors of unequal lengths raises [DIMENSION_MISMATCH],
    but its error carries no detail: the observed lengths are not in it,
    while the error the pairwise operations raise has both. *)
Theorem centroid_mismatch_has_no_detail (first : Embedding) (rest : list Embedding) :
  Exists (fun v => length v <> length first) rest ->
  centroid (first :: rest) =
    Err (mkSemanticError DIMENSION_MISMATCH
           "All embeddings must have same dimensions" None) /\
  forall a b : Embedding, a <> [] -> b <> [] -> length a <> length b ->
    exists e, dotProduct a b = Err e /\ cosineSimilarity a b = Err e /\
              euclideanDistance a b = Err e /\
              code e = DIMENSION_MISMATCH /\
              details e = Some (DDimensions (length a) (length b)).
Proof.
  intros Hex. split.
  - unfold centroid.
    rewrite centroid_loop_mismatch; [reflexivity |].
    apply Exists_cons_tl. exact Hex.
  - intros a b Ha Hb Hne.
    destruct (pairwise_dimension_mismatch a b Ha Hb Hne) as (H1 & H2 & H3).
    eexists. split; [exact H1 |]. split; [exact H2 |]. split; [exact H3 |].
    split; reflexivity.
Qed.

Lemma centroid_mismatch_has_no_detail_witness :
  centroid [[1; 2]; [1; 2; 3]]%float =
    Err (mkSemanticError DIMENSION_MISMATCH
           "All embeddings must have same dimensions" None).
Proof.
  apply (centroid_mismatch_has_no_detail [1; 2]%float [[1; 2; 3]%float]).
  apply Exists_cons_hd. simpl. lia.
Defined.

(** C9. Emptiness is checked before the lengths are compared: when either
    vector is empty the three pairwise operations raise [INVALID_INPUT], and
    so not [DIMENSION_MISMATCH], whatever the two lengths are. *)
Theorem empty_checked_before_dimensions (a b : Embedding) :
  a = [] \/ b = [] ->
  (is_err (dotProduct a b) INVALID_INPUT /\
   is_err (cosineSimilarity a b) INVALID_INPUT /\
   is_err (euclideanDistance a b) INVALID_INPUT) /\
  (~ is_err (dotProduct a b) DIMENSION_MISMATCH /\
   ~ is_err (cosineSimilarity a b) DIMENSION_MISMATCH /\
   ~ is_err (euclideanDistance a b) DIMENSION_MISMATCH).
Proof.
  intros H.
  assert (Hinv : is_err (dotProduct a b) INVALID_INPUT /\
                 is_err (cosineSimilarity a b) INVALID_INPUT /\
                 is_err (euclideanDistance a b) INVALID_INPUT).
  { unfold dotProduct, cosineSimilarity, euclideanDistance.
    destruct a as [|x a].
    - repeat split; eexists; (split; [reflexivity | reflexivity]).
    - destruct H as [H | ->]; [discriminate |].
      repeat split; eexists; (split; [reflexivity | reflexivity]). }
  split; [exact Hinv |].
  destruct Hinv as (H1 & H2 & H3).
  repeat split; eapply is_err_code; eauto; discriminate.
Qed.

Lemma empty_checked_before_dimensions_witness :
  is_err (dotProduct [] [1; 2]%float) INVALID_INPUT /\
  ~ is_err (euclideanDistance [1; 2; 3]%float []) DIMENSION_MISMATCH.
Proof.
  split.
  - apply (empty_checked_before_dimensions [] [1; 2]%float). left. reflexivity.
  - apply (empty_checked_before_dimensions [1; 2; 3]%float []). right. reflexivity.
Defined.

(** ** [centroid] and empty component vectors *)

Lemma centroid_loop_empty (embeddings : list Embedding) :
  Forall (fun v => v = []) embeddings ->
  centroid_loop 0 [] embeddings = Ok [].
Proof.
  induction 1 as [|v vs -> _ IH]; simpl; [reflexivity | exact IH].
Qed.

(** C10. [centroid] does not reject empty component vectors: on a non-empty
    list of empty vectors it returns the empty vector, although [magnitude],
    [dotProduct] and [cosineSimilarity] reject each of them with
    [INVALID_INPUT]. *)
Theorem centroid_accepts_empty_components (embeddings : list Embedding) :
  embeddings <> [] ->
  Forall (fun v => length v = 0) embeddings ->
  centroid embeddings = Ok [] /\
  forall v, v ∈ embeddings ->
    is_err (magnitude v) INVALID_INPUT /\
    forall b, is_err (dotProduct v b) INVALID_INPUT /\
              is_err (cosineSimilarity v b) INVALID_INPUT.
Proof.
  intros Hne Hall.
  assert (Hnil : Forall (fun v : Embedding => v = []) embeddings).
  { eapply Forall_impl; [exact Hall |]. intros v Hv. destruct v; [reflexivity | discriminate]. }
  split.
  - destruct embeddings as [|first rest]; [congruence |].
    unfold centroid.
    assert (first = []) as -> by (inversion Hnil; assumption).
    pose proof (centroid_loop_empty _ Hnil) as E.
    cbn [length replicate]. unfold Embedding in *. rewrite E. reflexivity.
  - intros v Hv.
    rewrite Forall_forall in Hnil. rewrite (Hnil v Hv).
    split; [eexists; split; reflexivity |].
    intros b. split; eexists; split; reflexivity.
Qed.

Lemma centroid_accepts_empty_components_witness :
  centroid [[]; []; []] = Ok [].
Proof.
  apply (centroid_accepts_empty_components [[]; []; []]).
  - discriminate.
  - repeat constructor.
Defined.

(** ** [cosineSimilarity] *)

(** C8. On non-empty vectors [cosineSimilarity] compares the lengths before
    anything else, raising [DIMENSION_MISMATCH] when they differ; on equal
    lengths the dot product and the two magnitudes are defined, a magnitude
    equal to zero raises [COMPUTATION_FAILED] (no number is returned), and
    otherwise the result is [dot / (magA * magB)]. *)
Theorem cosineSimilarity_spec (a b : Embedding) :
  a <> [] -> b <> [] ->
  (length a <> length b -> is_err (cosineSimilarity a b) DIMENSION_MISMATCH) /\
  (length a = length b ->
   exists dot magA magB,
     dotProduct a b = Ok dot /\ magnitude a = Ok magA /\ magnitude b = Ok magB /\
     (((magA =? 0)%float = true \/ (magB =? 0)%float = true) ->
        is_err (cosineSimilarity a b) COMPUTATION_FAILED) /\
     ((magA =? 0)%float = false -> (magB =? 0)%float = false ->
        cosineSimilarity a b = Ok (dot / (magA * magB))%float)).
Proof.
  intros Ha Hb. split.
  - intros Hne.
    destruct (pairwise_dimension_mismatch a b Ha Hb Hne) as (_ & H & _).
    eexists. split; [exact H | reflexivity].
  - intros Heq.
    unfold cosineSimilarity, dotProduct, magnitude.
    rewrite !(validateEmbedding_nonempty a), !(validateEmbedding_nonempty b) by assumption.
    rewrite (validateDimensions_same a b Heq). cbn [rbind].
    eexists _, _, _. split; [reflexivity |]. split; [reflexivity |]. split; [reflexivity |].
    split.
    + intros Hz.
      assert (E : ∀ x y, x = true \/ y = true -> x || y = true)
        by (intros [] []; intuition discriminate).
      rewrite (E _ _ Hz). eexists. split; reflexivity.
    + intros -> ->. reflexivity.
Qed.

Lemma cosineSimilarity_spec_witness :
  is_err (cosineSimilarity [0; 0]%float [0; 0; 0]%float) DIMENSION_MISMATCH /\
  is_err (cosineSimilarity [0; 0]%float [1; 0]%float) COMPUTATION_FAILED /\
  cosineSimilarity [3; 4]%float [4; 3]%float = Ok (24 / (5 * 5))%float.
Proof.
  split; [| split].
  - apply (cosineSimilarity_spec [0; 0]%float [0; 0; 0]%float); simpl; [discriminate .. | lia].
  - destruct (cosineSimilarity_spec [0; 0]%float [1; 0]%float) as (_ & H);
      [discriminate .. |].
    destruct (H eq_refl) as (dot & magA & magB & _ & HA & _ & Hz & _).
    apply Hz. left. inversion HA. reflexivity.
  - destruct (cosineSimilarity_spec [3; 4]%float [4; 3]%float) as (_ & H);
      [discriminate .. |].
    destruct (H eq_refl) as (dot & magA & magB & HD & HA & HB & _ & Hok).
    inversion HD; inversion HA; inversion HB; subst.
    apply Hok; reflexivity.
Defined.

(** ** The guards of [topKSimilar] *)

(** C3 as stated fails: with a non-empty query and no candidates a
    non-positive [k] is not rejected, the empty result is returned. *)
Lemma topKSimilar_empty_candidates_nonpositive_k :
  (0 <= 0)%Z /\ topKSimilar [1%float] [] 0 = Ok [] /\
  ~ is_err (topKSimilar [1%float] [] 0) INVALID_INPUT.
Proof.
  split; [lia |]. split; [reflexivity |].
  intros (e & H & _). discriminate H.
Qed.

(** C3, amended. The guards of [topKSimilar] apply in this order: an empty
    query raises [INVALID_INPUT] whatever the candidates and [k]; otherwise
    no candidates give the empty result whatever [k]; otherwise [k <= 0]
    raises [INVALID_INPUT]. *)
Theorem topKSimilar_guards (query : Embedding) (candidates : list Embedding) (k : Z) :
  (query = [] -> is_err (topKSimilar query candidates k) INVALID_INPUT) /\
  (query <> [] -> candidates = [] -> topKSimilar query candidates k = Ok []) /\
  (query <> [] -> candidates <> [] -> (k <= 0)%Z ->
   is_err (topKSimilar query candidates k) INVALID_INPUT).
Proof.
  unfold topKSimilar. split; [| split].
  - intros ->. eexists. split; reflexivity.
  - intros Hq ->. rewrite (validateEmbedding_nonempty _ _ Hq). reflexivity.
  - intros Hq Hc Hk. rewrite (validateEmbedding_nonempty _ _ Hq). cbn [rbind].
    destruct candidates; [congruence |]. cbn [length Nat.eqb].
    apply Z.leb_le in Hk. rewrite Hk. eexists. split; reflexivity.
Qed.

Lemma topKSimilar_guards_witness :
  is_err (topKSimilar [] [[1%float]] 3) INVALID_INPUT /\
  topKSimilar [1%float] [] (-2) = Ok [] /\
  is_err (topKSimilar [1%float] [[1%float]] 0) INVALID_INPUT.
Proof.
  split; [| split].
  - apply (proj1 (topKSimilar_guards [] [[1%float]] 3)). reflexivity.
  - apply (proj1 (proj2 (topKSimilar_guards [1%float] [] (-2))));
      [discriminate | reflexivity].
  - apply (proj2 (proj2 (topKSimilar_guards [1%float] [[1%float]] 0)));
      [discriminate .. | lia].
Defined.

(** ** Binary64 comparisons and the sign of a difference *)


Lemma SFcompare_nan_l y : SFcompare S754_nan y = None.
Proof. destruct y; reflexivity. Qed.

Lemma SFcompare_nan_r x : SFcompare x S754_nan = None.
Proof. destruct x; reflexivity. Qed.

Lemma SFcompare_key x y :
  x <> S754_nan -> y <> S754_nan ->
  exists c, SFcompare x y = Some c /\
    (c = Lt <-> lex_lt (key x) (key y)) /\
    (c = Eq <-> key x = key y) /\
    (c = Gt <-> lex_lt (key y) (key x)).
Proof.
  intros Hx Hy.
  destruct x as [sx|sx| |sx mx ex], y as [sy|sy| |sy my ey]; try congruence;
    try destruct sx; try destruct sy; cbn [SFcompare key lex_lt];
    try (eexists; split; [reflexivity |];
         repeat split; intros; try discriminate; try lia; try congruence; fail).
  all: change (Pos.compare_cont Eq mx my) with (Pos.compare mx my).
  all: destruct (Z.compare_spec ex ey) as [E | E | E];
       destruct (Pos.compare_spec mx my) as [E' | E' | E'];
       cbn [CompOpp];
       (eexists; split; [reflexivity |]);
       repeat split; intros H; try discriminate; try lia;
       try (injection H; lia); try (f_equal; lia); try (subst; reflexivity).
Qed.

(** *** Rounding keeps the sign of a non-zero value *)

Lemma digits2_size m : digits2_pos m = Pos.size m.
Proof. induction m; simpl; congruence. Qed.

Lemma size_bounds m : (2 ^ (Zpos (Pos.size m) - 1) <= Zpos m < 2 ^ Zpos (Pos.size m))%Z.
Proof.
  pose proof (Pos.size_gt m) as Hgt. pose proof (Pos.size_le m) as Hle.
  apply Pos2Z.pos_lt_pos in Hgt. apply Pos2Z.pos_le_pos in Hle.
  rewrite Pos2Z.inj_pow in Hgt, Hle.
  replace (Zpos (Pos.size m)) with (1 + (Zpos (Pos.size m) - 1))%Z in Hle at 1 by lia.
  rewrite Z.pow_add_r in Hle by lia.
  change (Zpos m~0) with (2 * Zpos m)%Z in Hle.
  change (2 ^ 1)%Z with 2%Z in Hle. lia.
Qed.

Lemma iter_pos_nat {A} (f : A -> A) p x :
  SpecFloat.iter_pos f p x = Nat.iter (Pos.to_nat p) f x.
Proof.
  revert x. induction p as [p IH | p IH |]; intros x; cbn [SpecFloat.iter_pos].
  - rewrite !IH, Pos2Nat.inj_xI.
    replace (S (2 * Pos.to_nat p)) with (Pos.to_nat p + (Pos.to_nat p + 1))%nat by lia.
    rewrite !Nat.iter_add. reflexivity.
  - rewrite !IH, Pos2Nat.inj_xO.
    replace (2 * Pos.to_nat p)%nat with (Pos.to_nat p + Pos.to_nat p)%nat by lia.
    rewrite Nat.iter_add. reflexivity.
  - reflexivity.
Qed.

Lemma shr_1_m mrs : (0 <= shr_m mrs)%Z -> shr_m (shr_1 mrs) = Z.div2 (shr_m mrs).
Proof.
  destruct mrs as [m r s]. cbn [shr_m]. intros Hm.
  destruct m as [|[p|p|]|p]; try reflexivity. lia.
Qed.

Lemma shr_iter_m n mrs :
  (0 <= shr_m mrs)%Z ->
  shr_m (Nat.iter n shr_1 mrs) = (shr_m mrs / 2 ^ Z.of_nat n)%Z.
Proof.
  intros Hm. induction n as [|n IH].
  - change (Nat.iter 0 shr_1 mrs) with mrs.
    change (2 ^ Z.of_nat 0)%Z with 1%Z. rewrite Z.div_1_r. reflexivity.
  - rewrite Nat.iter_succ. rewrite shr_1_m.
    + rewrite IH, Z.div2_div, Nat2Z.inj_succ, Z.pow_succ_r by lia.
      rewrite Z.div_div by lia. f_equal. lia.
    + rewrite IH. apply Z.div_pos; lia.
Qed.

Lemma shr_fexp_pos m e l :
  (emin <= e)%Z ->
  let '(mrs, e') := shr_fexp prec emax (Zpos m) e l in
  (0 < shr_m mrs)%Z /\ (emin <= e')%Z.
Proof.
  intros He. unfold shr_fexp, shr.
  assert (Hm : shr_m (shr_record_of_loc (Zpos m) l) = Zpos m)
    by (destruct l as [|[]]; reflexivity).
  destruct (fexp prec emax (Zdigits2 (Zpos m) + e) - e)%Z as [|p|p] eqn:En;
    try (rewrite Hm; split; lia).
  rewrite iter_pos_nat, shr_iter_m by (rewrite Hm; lia).
  rewrite Hm, positive_nat_Z.
  cbn [Zdigits2] in En. rewrite digits2_size in En.
  pose proof (size_bounds m) as [Hlo _].
  unfold fexp in En. change (SpecFloat.emin prec emax) with emin in En.
  unfold prec in En at 1.
  assert (Hp : (Zpos p <= Zpos (Pos.size m) - 1)%Z) by lia.
  split; [| lia].
  apply Z.div_str_pos. split; [apply Z.pow_pos_nonneg; lia |].
  etransitivity; [| exact Hlo].
  apply Z.pow_le_mono_r; lia.
Qed.

Lemma round_nearest_even_pos m l : (0 < m)%Z -> (0 < round_nearest_even m l)%Z.
Proof.
  intros Hm. unfold round_nearest_even.
  destruct l as [|[]]; try lia. destruct (Z.even m); lia.
Qed.

Lemma binary_round_aux_sign s m e l :
  (emin <= e)%Z -> has_sign s (binary_round_aux prec emax s (Zpos m) e l).
Proof.
  intros He. unfold binary_round_aux.
  pose proof (shr_fexp_pos m e l He) as H1.
  destruct (shr_fexp prec emax (Zpos m) e l) as [mrs' e'].
  destruct H1 as [Hm' He'].
  pose proof (round_nearest_even_pos (shr_m mrs') (loc_of_shr_record mrs') Hm') as Hr.
  destruct (round_nearest_even (shr_m mrs') (loc_of_shr_record mrs')) as [|m1|m1]; try lia.
  pose proof (shr_fexp_pos m1 e' loc_Exact He') as H2.
  destruct (shr_fexp prec emax (Zpos m1) e' loc_Exact) as [mrs'' e''].
  destruct H2 as [Hm'' _].
  destruct (shr_m mrs'') as [|m2|m2]; try lia.
  destruct (e'' <=? emax - prec)%Z; reflexivity.
Qed.

Lemma shl_align_exp m e e' :
  (emin <= e)%Z -> (emin <= e')%Z -> (emin <= snd (shl_align m e e'))%Z.
Proof.
  intros He He'. unfold shl_align. destruct (e' - e)%Z; cbn [snd]; lia.
Qed.

Lemma binary_round_sign s m e :
  (emin <= e)%Z -> has_sign s (binary_round prec emax s m e).
Proof.
  intros He. unfold binary_round.
  pose proof (shl_align_exp m e (fexp prec emax (Zpos (digits2_pos m) + e)) He) as H.
  destruct (shl_align m e (fexp prec emax (Zpos (digits2_pos m) + e))) as [mz ez].
  apply binary_round_aux_sign. apply H. unfold fexp.
  change (SpecFloat.emin prec emax) with emin. lia.
Qed.

Lemma binary_normalize_sign d e :
  (emin <= e)%Z ->
  match binary_normalize prec emax d e false with
  | S754_zero s => d = 0%Z /\ s = false
  | S754_nan => False
  | S754_finite s _ _ | S754_infinity s => if s then (d < 0)%Z else (0 < d)%Z
  end.
Proof.
  intros He. destruct d as [|m|m]; cbn [binary_normalize].
  - auto.
  - pose proof (binary_round_sign false m e He) as H.
    destruct (binary_round prec emax false m e); cbn [has_sign] in H; subst; lia.
  - pose proof (binary_round_sign true m e He) as H.
    destruct (binary_round prec emax true m e); cbn [has_sign] in H; subst; lia.
Qed.

(** *** The order of two finite floats is that of their aligned mantissas *)

Lemma canonical_bounds m e :
  canonical_mantissa prec emax m e = true ->
  (emin <= e /\ Zpos m < 2 ^ 53 /\ (emin < e -> 2 ^ 52 <= Zpos m))%Z.
Proof.
  unfold canonical_mantissa, fexp. intros H. apply Z.eqb_eq in H.
  change (SpecFloat.emin prec emax) with (-1074)%Z in *. change prec with 53%Z in H.
  rewrite digits2_size in H.
  pose proof (size_bounds m) as [Hlo Hhi].
  split; [lia |]. split.
  - eapply Z.lt_le_trans; [exact Hhi |]. apply Z.pow_le_mono_r; lia.
  - intros He. replace (Zpos (Pos.size m)) with 53%Z in Hlo by lia. exact Hlo.
Qed.

Lemma iter_xO_value m d : Zpos (Pos.iter xO m d) = (Zpos m * 2 ^ Zpos d)%Z.
Proof.
  induction d as [|d IH] using Pos.peano_ind.
  - cbn [Pos.iter]. change (2 ^ 1)%Z with 2%Z. lia.
  - rewrite Pos.iter_succ, Pos2Z.inj_succ, Z.pow_succ_r by lia.
    change (Zpos (Pos.iter xO m d)~0) with (2 * Zpos (Pos.iter xO m d))%Z.
    rewrite IH. lia.
Qed.

Lemma shl_align_value m e ez :
  (ez <= e)%Z -> Zpos (fst (shl_align m e ez)) = (Zpos m * 2 ^ (e - ez))%Z.
Proof.
  intros He. unfold shl_align.
  destruct (ez - e)%Z as [|d|d] eqn:Ed; cbn [fst]; try lia.
  - replace (e - ez)%Z with 0%Z by lia. change (2 ^ 0)%Z with 1%Z. lia.
  - rewrite iter_xO_value. f_equal. f_equal. lia.
Qed.

Lemma aligned_order s1 m1 e1 s2 m2 e2 :
  canonical_mantissa prec emax m1 e1 = true ->
  canonical_mantissa prec emax m2 e2 = true ->
  let ez := Z.min e1 e2 in
  (aligned s1 m1 e1 ez < aligned s2 m2 e2 ez)%Z <->
  lex_lt (key (S754_finite s1 m1 e1)) (key (S754_finite s2 m2 e2)).
Proof.
  intros H1 H2 ez.
  apply canonical_bounds in H1 as (Hmin1 & Hhi1 & Hlo1).
  apply canonical_bounds in H2 as (Hmin2 & Hhi2 & Hlo2).
  unfold aligned.
  rewrite !shl_align_value by (unfold ez; lia).
  assert (Hcases : ((e1 = e2 /\ 2 ^ (e1 - ez) = 1 /\ 2 ^ (e2 - ez) = 1) \/
                    (e1 < e2 /\ 2 ^ (e1 - ez) = 1 /\ 2 <= 2 ^ (e2 - ez)) \/
                    (e2 < e1 /\ 2 <= 2 ^ (e1 - ez) /\ 2 ^ (e2 - ez) = 1))%Z).
  { assert (Hpow : forall n, (0 < n)%Z -> (2 <= 2 ^ n)%Z).
    { intros n Hn. change 2%Z with (2 ^ 1)%Z at 1. apply Z.pow_le_mono_r; lia. }
    destruct (Z.lt_total e1 e2) as [E | [E | E]]; unfold ez.
    - right; left. rewrite Z.min_l, Z.sub_diag by lia.
      split; [lia |]. split; [reflexivity |]. apply Hpow. lia.
    - left. subst e2. rewrite Z.min_id, Z.sub_diag. auto.
    - right; right. rewrite Z.min_r, Z.sub_diag by lia.
      split; [lia |]. split; [apply Hpow; lia | reflexivity]. }
  destruct s1, s2; cbn [cond_Zopp key lex_lt];
    destruct Hcases as [(E & -> & ->) | [(E & -> & Hp) | (E & Hp & ->)]];
    try specialize (Hlo1 ltac:(lia)); try specialize (Hlo2 ltac:(lia));
    split; intros H; nia.
Qed.

(** *** Comparisons of floats *)

Lemma SFcompare_refl x : x <> S754_nan -> SFcompare x x = Some Eq.
Proof.
  intros Hx. destruct (SFcompare_key x x Hx Hx) as (c & Hc & _ & HEq & _).
  rewrite Hc. f_equal. apply HEq. reflexivity.
Qed.

Lemma is_nan_spec x : PrimFloat.is_nan x = true <-> Prim2SF x = S754_nan.
Proof.
  unfold PrimFloat.is_nan. rewrite FloatAxioms.eqb_spec. unfold SFeqb.
  destruct (Prim2SF x) as [s|s| |s m e] eqn:E;
    try (rewrite SFcompare_refl by discriminate; split; discriminate).
  split; reflexivity.
Qed.

Lemma not_nan_spec x : PrimFloat.is_nan x = false <-> Prim2SF x <> S754_nan.
Proof.
  rewrite <- is_nan_spec. destruct (PrimFloat.is_nan x); split; congruence.
Qed.

Lemma compare_cases x y :
  PrimFloat.is_nan x = false -> PrimFloat.is_nan y = false ->
  exists c, SFcompare (Prim2SF x) (Prim2SF y) = Some c /\
    (c = Lt <-> lex_lt (fkey x) (fkey y)) /\
    (c = Eq <-> fkey x = fkey y) /\
    (c = Gt <-> lex_lt (fkey y) (fkey x)).
Proof.
  intros Hx Hy. apply SFcompare_key; apply not_nan_spec; assumption.
Qed.

Lemma ltb_lex x y :
  PrimFloat.is_nan x = false -> PrimFloat.is_nan y = false ->
  (x <? y)%float = true <-> lex_lt (fkey x) (fkey y).
Proof.
  intros Hx Hy. rewrite FloatAxioms.ltb_spec. unfold SFltb.
  destruct (compare_cases x y Hx Hy) as (c & -> & HLt & _).
  rewrite <- HLt. destruct c; split; congruence.
Qed.

Lemma eqb_key x y :
  PrimFloat.is_nan x = false -> PrimFloat.is_nan y = false ->
  (x =? y)%float = true <-> fkey x = fkey y.
Proof.
  intros Hx Hy. rewrite FloatAxioms.eqb_spec. unfold SFeqb.
  destruct (compare_cases x y Hx Hy) as (c & -> & _ & HEq & _).
  rewrite <- HEq. destruct c; split; congruence.
Qed.

Lemma leb_lex x y :
  PrimFloat.is_nan x = false -> PrimFloat.is_nan y = false ->
  (x <=? y)%float = true <-> lex_lt (fkey x) (fkey y) \/ fkey x = fkey y.
Proof.
  intros Hx Hy. rewrite FloatAxioms.leb_spec. unfold SFleb.
  destruct (compare_cases x y Hx Hy) as (c & -> & HLt & HEq & _).
  rewrite <- HLt, <- HEq. destruct c; split; intuition congruence.
Qed.

Lemma leb_not_nan x y :
  (x <=? y)%float = true -> PrimFloat.is_nan x = false /\ PrimFloat.is_nan y = false.
Proof.
  rewrite FloatAxioms.leb_spec, !not_nan_spec. unfold SFleb. intros H.
  split; intros E; rewrite E in H;
    [rewrite SFcompare_nan_l in H | rewrite SFcompare_nan_r in H]; discriminate.
Qed.

Lemma lex_lt_trans k1 k2 k3 : lex_lt k1 k2 -> lex_lt k2 k3 -> lex_lt k1 k3.
Proof.
  destruct k1 as [[a1 b1] c1], k2 as [[a2 b2] c2], k3 as [[a3 b3] c3].
  cbn [lex_lt]. lia.
Qed.

Lemma lex_lt_irrefl k : ~ lex_lt k k.
Proof. destruct k as [[a b] c]. cbn [lex_lt]. lia. Qed.

Lemma lex_total k1 k2 : lex_lt k1 k2 \/ k1 = k2 \/ lex_lt k2 k1.
Proof.
  destruct k1 as [[a1 b1] c1], k2 as [[a2 b2] c2]. cbn [lex_lt].
  destruct (Z.lt_total a1 a2) as [? | [-> | ?]]; [lia | | lia].
  destruct (Z.lt_total b1 b2) as [? | [-> | ?]]; [lia | | lia].
  destruct (Z.lt_total c1 c2) as [? | [-> | ?]]; [lia | | lia].
  auto.
Qed.

Lemma leb_trans x y z :
  (x <=? y)%float = true -> (y <=? z)%float = true -> (x <=? z)%float = true.
Proof.
  intros Hxy Hyz.
  destruct (leb_not_nan _ _ Hxy) as [Hx Hy].
  destruct (leb_not_nan _ _ Hyz) as [_ Hz].
  apply leb_lex in Hxy, Hyz; try assumption. apply leb_lex; try assumption.
  destruct Hxy as [Hxy | Hxy], Hyz as [Hyz | Hyz].
  - left. eapply lex_lt_trans; eassumption.
  - left. rewrite <- Hyz. assumption.
  - left. rewrite Hxy. assumption.
  - right. congruence.
Qed.

(** The sign of a difference is the order of its operands. *)
Lemma SFsub_pos x y :
  x <> S754_nan -> y <> S754_nan ->
  valid_binary x = true -> valid_binary y = true ->
  SFltb (S754_zero false) (SF64sub y x) = SFltb x y.
Proof.
  intros Hx Hy Vx Vy.
  destruct x as [sx|sx| |sx mx ex], y as [sy|sy| |sy my ey]; try congruence;
    try (destruct sx; try destruct sy; reflexivity);
    try (destruct sy; try destruct sx; reflexivity).
  cbn [SpecFloat.valid_binary bounded] in Vx, Vy.
  apply andb_prop in Vx as [Cx _]. apply andb_prop in Vy as [Cy _].
  pose proof (aligned_order sx mx ex sy my ey Cx Cy) as Hord.
  cbn zeta in Hord. unfold aligned in Hord.
  destruct (SFcompare_key (S754_finite sx mx ex) (S754_finite sy my ey))
    as (c & Hc & HLt & _); try discriminate.
  unfold SFltb at 2. rewrite Hc.
  unfold SF64sub, SFsub.
  rewrite (Z.min_comm ey ex).
  set (d := (cond_Zopp sy (Z.pos (fst (shl_align my ey (Z.min ex ey)))) -
             cond_Zopp sx (Z.pos (fst (shl_align mx ex (Z.min ex ey)))))%Z).
  assert (Hez : (emin <= Z.min ex ey)%Z).
  { apply canonical_bounds in Cx as [? _], Cy as [? _]. lia. }
  pose proof (binary_normalize_sign d (Z.min ex ey) Hez) as Hs.
  assert (Hd : (0 < d)%Z <-> c = Lt) by (rewrite HLt, <- Hord; unfold d; lia).
  destruct (Z.ltb_spec 0 d) as [Hpos | Hneg].
  - assert (c = Lt) as -> by (apply Hd; exact Hpos).
    destruct (binary_normalize prec emax d (Z.min ex ey) false) as [s|[]| |[] m e];
      try reflexivity; try contradiction; lia.
  - assert (c <> Lt) by (intros E; apply Hd in E; lia).
    destruct (binary_normalize prec emax d (Z.min ex ey) false) as [s|[]| |[] m e];
      destruct c; try reflexivity; try contradiction; try congruence; lia.
Qed.

Lemma sub_pos x y :
  PrimFloat.is_nan x = false -> PrimFloat.is_nan y = false ->
  (0 <? y - x)%float = (x <? y)%float.
Proof.
  intros Hx Hy. rewrite !FloatAxioms.ltb_spec, FloatAxioms.sub_spec.
  change (Prim2SF 0) with (S754_zero false).
  apply SFsub_pos; try apply Prim2SF_valid; apply not_nan_spec; assumption.
Qed.

Lemma ltb_nan_r x y : PrimFloat.is_nan y = true -> (x <? y)%float = false.
Proof.
  intros Hy. apply is_nan_spec in Hy.
  rewrite FloatAxioms.ltb_spec. unfold SFltb. rewrite Hy, SFcompare_nan_r. reflexivity.
Qed.

(** ** [Array_sort] *)

Section ArraySortFacts.
Context {A : Type} (comparefn : A -> A -> float).

Lemma sort_insert_perm (x : A) (l : list A) :
  sort_insert comparefn x l ≡ₚ x :: l.
Proof.
  induction l as [|y l IH]; cbn [sort_insert]; [reflexivity |].
  destruct (0 <? SortCompare comparefn x y)%float; [| reflexivity].
  rewrite IH. apply Permutation_swap.
Qed.

Lemma Array_sort_perm (l : list A) : Array_sort comparefn l ≡ₚ l.
Proof.
  induction l as [|x l IH]; cbn [Array_sort foldr]; [reflexivity |].
  rewrite sort_insert_perm. fold (Array_sort comparefn l). rewrite IH. reflexivity.
Qed.

Lemma Array_sort_length (l : list A) : length (Array_sort comparefn l) = length l.
Proof. apply Permutation_length, Array_sort_perm. Qed.

End ArraySortFacts.

(** The test the sort makes on two scored candidates, when neither score is
    NaN: is the first score the smaller one. *)
Lemma SortCompare_scores (x y : nat * float) :
  PrimFloat.is_nan x.2 = false -> PrimFloat.is_nan y.2 = false ->
  (0 <? SortCompare (fun a b => (b.2 - a.2)%float) x y)%float = (x.2 <? y.2)%float.
Proof.
  intros Hx Hy. unfold SortCompare. cbn zeta.
  rewrite <- (sub_pos x.2 y.2 Hx Hy).
  destruct (PrimFloat.is_nan (y.2 - x.2)) eqn:E; [| reflexivity].
  rewrite (ltb_nan_r 0 _ E). reflexivity.
Qed.

(** [precedes], read on the keys. *)
Lemma precedes_key (a b : nat * float) :
  PrimFloat.is_nan a.2 = false -> PrimFloat.is_nan b.2 = false ->
  precedes a b <->
  lex_lt (fkey b.2) (fkey a.2) \/ (fkey a.2 = fkey b.2 /\ a.1 < b.1).
Proof.
  intros Ha Hb. unfold precedes.
  rewrite (ltb_lex _ _ Hb Ha), (eqb_key _ _ Ha Hb). reflexivity.
Qed.

Lemma precedes_leb (a b : nat * float) :
  PrimFloat.is_nan a.2 = false -> PrimFloat.is_nan b.2 = false ->
  precedes a b -> (b.2 <=? a.2)%float = true.
Proof.
  intros Ha Hb H. apply (precedes_key _ _ Ha Hb) in H.
  apply (leb_lex _ _ Hb Ha). destruct H as [H | [H _]]; auto.
Qed.

Lemma precedes_tie (a b : nat * float) :
  PrimFloat.is_nan a.2 = false -> PrimFloat.is_nan b.2 = false ->
  precedes a b -> (a.2 =? b.2)%float = true -> a.1 < b.1.
Proof.
  intros Ha Hb H E. apply (precedes_key _ _ Ha Hb) in H.
  apply (eqb_key _ _ Ha Hb) in E.
  destruct H as [H | [_ H]]; [| exact H].
  rewrite E in H. destruct (lex_lt_irrefl _ H).
Qed.

Lemma sort_insert_sorted (x : nat * float) (l : list (nat * float)) :
  PrimFloat.is_nan x.2 = false -> no_nan l ->
  Forall (fun y => x.1 < y.1) l ->
  StronglySorted precedes l ->
  StronglySorted precedes (sort_insert (fun a b => (b.2 - a.2)%float) x l).
Proof.
  intros Hx. induction l as [|y l IH]; intros Hnan Hidx Hs; cbn [sort_insert].
  - repeat constructor.
  - apply Forall_cons in Hnan as [Hy Hnan]. apply Forall_cons in Hidx as [Hxy Hidx].
    apply StronglySorted_inv in Hs as [Hs Hyl].
    rewrite (SortCompare_scores x y Hx Hy).
    destruct (x.2 <? y.2)%float eqn:E.
    + constructor; [apply IH; assumption |].
      rewrite sort_insert_perm. constructor; [| exact Hyl].
      left. exact E.
    + assert (Hxy' : precedes x y).
      { apply precedes_key; try assumption.
        destruct (lex_total (fkey x.2) (fkey y.2)) as [H | [H | H]]; auto.
        apply (ltb_lex _ _ Hx Hy) in H. congruence. }
      constructor; [constructor; assumption |].
      constructor; [exact Hxy' |].
      rewrite Forall_forall in Hyl, Hnan, Hidx |- *. intros z Hz.
      specialize (Hyl z Hz). specialize (Hnan z Hz). specialize (Hidx z Hz).
      apply precedes_key in Hxy', Hyl; try assumption.
      apply precedes_key; try assumption.
      destruct Hxy' as [H1 | [H1 _]], Hyl as [H2 | [H2 _]].
      * left. eapply lex_lt_trans; eassumption.
      * left. rewrite <- H2. exact H1.
      * left. rewrite H1. exact H2.
      * right. split; [congruence | exact Hidx].
Qed.

Lemma Array_sort_sorted (l : list (nat * float)) :
  no_nan l ->
  StronglySorted (fun a b => a.1 < b.1) l ->
  StronglySorted precedes (Array_sort (fun a b => (b.2 - a.2)%float) l).
Proof.
  induction l as [|x l IH]; intros Hnan Hs; cbn [Array_sort foldr].
  - constructor.
  - apply Forall_cons in Hnan as [Hx Hnan].
    apply StronglySorted_inv in Hs as [Hs Hxl].
    fold (Array_sort (fun a b : nat * float => (b.2 - a.2)%float) l).
    apply sort_insert_sorted; try assumption.
    + unfold no_nan. rewrite Array_sort_perm. exact Hnan.
    + rewrite Array_sort_perm. exact Hxl.
    + apply IH; assumption.
Qed.

(** ** [topKSimilar]: order and length of the result *)

Lemma StronglySorted_lookup {A} (R : A -> A -> Prop) (l : list A) :
  StronglySorted R l <->
  forall i j x y, i < j -> l !! i = Some x -> l !! j = Some y -> R x y.
Proof.
  induction l as [|a l IH].
  - split; [intros _ i j x y _ Hi; discriminate Hi | constructor].
  - destruct IH as [IH1 IH2]. split.
    + intros Hs. apply StronglySorted_inv in Hs as [Hs Ha].
      intros [|i] [|j] x y Hij Hi Hj; try lia; cbn in Hi, Hj.
      * injection Hi as <-. rewrite Forall_forall in Ha.
        apply Ha. eapply list_elem_of_lookup_2. exact Hj.
      * apply (IH1 Hs i j); [lia | assumption ..].
    + intros H. constructor.
      * apply IH2. intros i j x y Hij Hi Hj. apply (H (S i) (S j)); [lia | assumption ..].
      * rewrite Forall_forall. intros y Hy.
        apply list_elem_of_lookup_1 in Hy as [j Hj].
        apply (H 0 (S j)); [lia | reflexivity | exact Hj].
Qed.

Lemma imap_indices_sorted {A B} (f : A -> B) (l : list A) :
  StronglySorted (fun a b : nat * B => a.1 < b.1) (imap (fun idx c => (idx, f c)) l).
Proof.
  apply StronglySorted_lookup. intros i j x y Hij Hi Hj.
  rewrite list_lookup_imap in Hi, Hj.
  destruct (l !! i); [| discriminate]. destruct (l !! j); [| discriminate].
  injection Hi as <-. injection Hj as <-. exact Hij.
Qed.

Lemma slice_prefix {A} (n : Z) (l : list A) :
  (0 <= n)%Z -> slice 0 n l = take (Z.to_nat n) l.
Proof.
  intros Hn. unfold slice. cbn [Z.ltb Z.compare].
  destruct (Z.ltb_spec n 0) as [? | _]; [lia |].
  rewrite (Z.min_l 0), Z.sub_0_r by lia. change (Z.to_nat 0) with 0. rewrite drop_0.
  destruct (Z.le_gt_cases n (Z.of_nat (length l))).
  - rewrite Z.min_l by lia. reflexivity.
  - rewrite Z.min_r by lia. rewrite Nat2Z.id.
    rewrite !take_ge by lia. reflexivity.
Qed.

Lemma StronglySorted_descending (l : list (nat * float)) :
  no_nan l -> StronglySorted precedes l -> descending l.*2.
Proof.
  intros Hnan Hs i x y Hi Hj.
  rewrite list_lookup_fmap in Hi, Hj.
  destruct (l !! i) as [a|] eqn:Ea; [| discriminate].
  destruct (l !! S i) as [b|] eqn:Eb; [| discriminate].
  injection Hi as <-. injection Hj as <-.
  unfold no_nan in Hnan. rewrite Forall_forall in Hnan.
  apply precedes_leb.
  - apply Hnan. eapply list_elem_of_lookup_2; eassumption.
  - apply Hnan. eapply list_elem_of_lookup_2; eassumption.
  - rewrite StronglySorted_lookup in Hs. apply (Hs i (S i)); [lia | assumption ..].
Qed.

(** C7 as stated fails: a candidate can score NaN (here the dot product and
    a magnitude overflow, and infinity divided by infinity is NaN); NaN
    compares with nothing, so the result is not descending, and no
    arrangement of these scores is. *)
Lemma topKSimilar_nan_score_not_descending :
  let query := [0x1p+600; 0]%float in
  let candidates := [[0; 0]; [0x1p+600; 0]; [1; 0]]%float in
  (exists out, topKSimilar query candidates 3 = Ok out /\ ~ descending out.*2) /\
  (forall l, l ≡ₚ similarity query <$> candidates -> ~ descending l).
Proof.
  cbn zeta.
  assert (Hsc : similarity [0x1p+600; 0]%float <$> [[0; 0]; [0x1p+600; 0]; [1; 0]]%float
                = [neg_infinity; nan; 0%float]) by (vm_compute; reflexivity).
  assert (Hnan : forall l, nan ∈ l -> 2 <= length l -> ~ descending l).
  { intros l Hin Hlen Hd.
    apply list_elem_of_lookup_1 in Hin as [i Hi].
    destruct i as [|i].
    - destruct l as [|x [|y l]]; cbn in Hlen; try lia.
      injection Hi as ->. specialize (Hd 0 nan y eq_refl eq_refl).
      apply leb_not_nan in Hd as [_ Hd]. discriminate Hd.
    - destruct (l !! i) as [x|] eqn:Ex.
      + specialize (Hd i x nan Ex Hi).
        apply leb_not_nan in Hd as [Hd _]. discriminate Hd.
      + apply lookup_ge_None in Ex. apply lookup_lt_Some in Hi. lia. }
  split.
  - exists [(0, neg_infinity); (1, nan); (2, 0%float)].
    split; [vm_compute; reflexivity |].
    apply Hnan; [| cbn; lia]. cbn. set_solver.
  - intros l Hl. rewrite Hsc in Hl. apply Hnan.
    + rewrite Hl. set_solver.
    + rewrite Hl. cbn. lia.
Qed.

(** C7, amended. For a non-empty query, non-empty candidates and [k > 0],
    when no candidate scores NaN, [topKSimilar] returns [min(k, n)] entries
    [(index, score)], each the score of the candidate at that index, in
    descending order of score, entries of equal score in the order of their
    candidates; the entries left out are preceded by all those returned. *)
Theorem topKSimilar_sorted (query : Embedding) (candidates : list Embedding) (k : Z) :
  query <> [] -> candidates <> [] -> (0 < k)%Z ->
  Forall (fun c => PrimFloat.is_nan (similarity query c) = false) candidates ->
  exists out,
    topKSimilar query candidates k = Ok out /\
    Z.of_nat (length out) = Z.min k (Z.of_nat (length candidates)) /\
    descending out.*2 /\
    (forall p q a b, p < q -> out !! p = Some a -> out !! q = Some b ->
       (a.2 =? b.2)%float = true -> a.1 < b.1) /\
    (forall idx sc, (idx, sc) ∈ out ->
       exists c, candidates !! idx = Some c /\ sc = similarity query c) /\
    exists rest,
      (out ++ rest)%list ≡ₚ imap (fun idx c => (idx, similarity query c)) candidates /\
      forall a b, a ∈ out -> b ∈ rest -> precedes a b.
Proof.
  intros Hq Hc Hk Hscores.
  set (similarities := imap (fun idx c => (idx, similarity query c)) candidates).
  set (sorted := Array_sort (fun a b : nat * float => (b.2 - a.2)%float) similarities).
  set (n := Z.to_nat (Z.min k (Z.of_nat (length sorted)))).
  assert (Hlen : length sorted = length candidates).
  { unfold sorted. rewrite Array_sort_length. apply length_imap. }
  assert (Hnan : no_nan similarities).
  { unfold no_nan, similarities. rewrite Forall_forall. intros a Ha.
    apply elem_of_lookup_imap_1 in Ha as (i & c & -> & Hi).
    rewrite Forall_forall in Hscores. apply Hscores.
    eapply list_elem_of_lookup_2. exact Hi. }
  assert (Hperm : sorted ≡ₚ similarities) by apply Array_sort_perm.
  assert (Hnan' : no_nan sorted) by (unfold no_nan; rewrite Hperm; exact Hnan).
  assert (Hsorted : StronglySorted precedes sorted).
  { apply Array_sort_sorted; [exact Hnan | apply imap_indices_sorted]. }
  assert (Hsplit : sorted = (take n sorted ++ drop n sorted)%list) by (symmetry; apply take_drop).
  exists (take n sorted). split; [| split; [| split; [| split; [| split]]]].
  - unfold topKSimilar. rewrite (validateEmbedding_nonempty _ _ Hq). cbn [rbind].
    destruct candidates as [|c cs]; [congruence |]. cbn [length Nat.eqb].
    destruct (Z.leb_spec k 0) as [? | _]; [lia |].
    fold similarities. fold sorted. rewrite slice_prefix by lia. reflexivity.
  - rewrite length_take, <- Hlen. unfold n. lia.
  - apply StronglySorted_descending.
    + unfold no_nan in *. rewrite Hsplit in Hnan'. apply Forall_app in Hnan' as [H _]. exact H.
    + rewrite Hsplit in Hsorted. eapply StronglySorted_app_1_l. exact Hsorted.
  - intros p q a b Hpq Hp Hb E.
    assert (Ha' : sorted !! p = Some a).
    { rewrite lookup_take_Some in Hp. tauto. }
    assert (Hb' : sorted !! q = Some b).
    { rewrite lookup_take_Some in Hb. tauto. }
    unfold no_nan in Hnan'. rewrite Forall_forall in Hnan'.
    apply precedes_tie; try assumption.
    + apply Hnan'. eapply list_elem_of_lookup_2; eassumption.
    + apply Hnan'. eapply list_elem_of_lookup_2; eassumption.
    + rewrite StronglySorted_lookup in Hsorted. apply (Hsorted p q); assumption.
  - intros idx sc Hin.
    assert (Hin' : (idx, sc) ∈ similarities).
    { rewrite <- Hperm, Hsplit. apply elem_of_app. left. exact Hin. }
    apply elem_of_lookup_imap_1 in Hin' as (i & c & [= -> ->] & Hi).
    exists c. split; [exact Hi | reflexivity].
  - exists (drop n sorted). split; [rewrite <- Hsplit; exact Hperm |].
    intros a b Ha Hb. rewrite Hsplit in Hsorted.
    eapply StronglySorted_app_1_elem_of; eassumption.
Qed.

Lemma topKSimilar_sorted_witness :
  exists out,
    topKSimilar [1; 0; 0]%float
      [[0; 1; 0]; [-1; 0; 0]; [1; 0; 0]; [1; 0]; [0; 2; 0]]%float 3 = Ok out /\
    Z.of_nat (length out) = 3%Z /\ descending out.*2.
Proof.
  destruct (topKSimilar_sorted [1; 0; 0]%float
              [[0; 1; 0]; [-1; 0; 0]; [1; 0; 0]; [1; 0]; [0; 2; 0]]%float 3)
    as (out & H1 & H2 & H3 & _).
  - discriminate.
  - discriminate.
  - lia.
  - repeat constructor.
  - exists out. split; [exact H1 |]. split; [exact H2 | exact H3].
Defined.

(** ** The store: what a write leaves unchanged *)

Section StoreFacts.
Context {T : Type}.
Implicit Types (h : gmap loc (object T)) (s : state T).

Lemma read_numbers_frame h e v x o :
  read_numbers h e = Some v -> free_or_array h x ->
  read_numbers (<[x := o]> h) e = Some v.
Proof.
  unfold read_numbers. intros H Hx.
  destruct (decide (x = e)) as [-> | Hne].
  - destruct Hx as [Hx | [rs Hx]]; rewrite Hx in H; discriminate.
  - rewrite lookup_insert_ne by exact Hne. exact H.
Qed.

Lemma read_metadata_frame h l m x o :
  read_metadata h l = Some m -> free_or_array h x ->
  read_metadata (<[x := o]> h) l = Some m.
Proof.
  unfold read_metadata. intros H Hx.
  destruct (decide (x = l)) as [-> | Hne].
  - destruct Hx as [Hx | [rs Hx]]; rewrite Hx in H; discriminate.
  - rewrite lookup_insert_ne by exact Hne. exact H.
Qed.

Lemma read_item_frame h r it x o :
  read_item h r = Some it -> free_or_array h x ->
  read_item (<[x := o]> h) r = Some it.
Proof.
  unfold read_item. intros H Hx.
  destruct (decide (x = r)) as [-> | Hne].
  - destruct Hx as [Hx | [rs Hx]]; rewrite Hx in H; discriminate.
  - rewrite lookup_insert_ne by exact Hne.
    destruct (h !! r) as [[rs | i e md | v | m] |]; try discriminate.
    destruct (read_numbers h e) as [v|] eqn:Ev; [| discriminate].
    rewrite (read_numbers_frame _ _ _ _ _ Ev Hx).
    destruct md as [l|]; [| exact H].
    destruct (read_metadata h l) as [m|] eqn:Em; [| discriminate].
    rewrite (read_metadata_frame _ _ _ _ _ Em Hx). exact H.
Qed.

Lemma read_records_frame h rs items x o :
  mapM (read_item h) rs = Some items -> free_or_array h x ->
  mapM (read_item (<[x := o]> h)) rs = Some items.
Proof.
  rewrite !mapM_Some. intros H Hx.
  eapply Forall2_impl; [exact H |].
  intros r it Hr. eapply read_item_frame; eassumption.
Qed.

Lemma read_items_inv h a items :
  read_items h a = Some items ->
  exists rs, read_array h a = Some rs /\ h !! a = Some (ItemArray rs) /\
             mapM (read_item h) rs = Some items.
Proof.
  unfold read_items, read_array. intros H.
  destruct (h !! a) as [[rs | | |] |]; try discriminate.
  exists rs. auto.
Qed.

Lemma read_items_frame h a items x o :
  read_items h a = Some items -> x <> a -> free_or_array h x ->
  read_items (<[x := o]> h) a = Some items.
Proof.
  intros H Hne Hx.
  apply read_items_inv in H as (rs & _ & Ha & Hrs).
  unfold read_items, read_array. rewrite lookup_insert_ne by exact Hne.
  rewrite Ha. cbn. eapply read_records_frame; eassumption.
Qed.

Lemma read_items_new h a rs items :
  mapM (read_item h) rs = Some items -> free_or_array h a ->
  read_items (<[a := ItemArray rs]> h) a = Some items.
Proof.
  intros Hrs Ha. unfold read_items, read_array. rewrite lookup_insert_eq. cbn.
  eapply read_records_frame; eassumption.
Qed.

Lemma fresh_free h : h !! fresh (dom h) = None.
Proof. apply not_elem_of_dom. apply is_fresh. Qed.

Lemma fresh_free_or_array h : free_or_array h (fresh (dom h)).
Proof. left. apply fresh_free. Qed.

Lemma fresh_ne h a o : h !! a = Some o -> fresh (dom h) <> a.
Proof. intros H E. rewrite <- E, fresh_free in H. discriminate. Qed.

Lemma this_eta (t : SemanticSearch T) :
  {| engine := engine t; indexedItems := indexedItems t; config := config t |} = t.
Proof. destruct t. reflexivity. Qed.

Lemma state_eta s : {| heap := heap s; this := this s |} = s.
Proof. destruct s. reflexivity. Qed.

End StoreFacts.

(** ** [exportIndex] and [importIndex] *)

Section ExportImport.
Context {T : Type}.
Implicit Types (h : gmap loc (object T)) (s : state T).

Lemma exportIndex_run s rs :
  read_array (heap s) (indexedItems (this s)) = Some rs ->
  exportIndex s =
  Some (Returned (fresh (dom (heap s))),
        {| heap := <[fresh (dom (heap s)) := ItemArray rs]> (heap s);
           this := this s |}).
Proof.
  intros H. unfold exportIndex, bind, get_this, load, alloc. rewrite H. reflexivity.
Qed.

Lemma importIndex_run s index rs :
  read_array (heap s) index = Some rs ->
  importIndex index s =
  Some (Returned tt,
        {| heap := <[fresh (dom (heap s)) := ItemArray rs]> (heap s);
           this := {| engine := engine (this s);
                      indexedItems := fresh (dom (heap s));
                      config := config (this s) |} |}).
Proof.
  intros H. unfold importIndex, bind, load, alloc, set_indexedItems.
  rewrite H. reflexivity.
Qed.

Lemma array_assign_run s arr rs rs' :
  read_array (heap s) arr = Some rs ->
  array_assign arr rs' s =
  Some (Returned tt, {| heap := <[arr := ItemArray rs']> (heap s); this := this s |}).
Proof.
  intros H. unfold array_assign, bind, load, store. rewrite H. reflexivity.
Qed.

(** C1, amended. [exportIndex] and [importIndex] copy the sequence, not the
    records.  The array [exportIndex] returns holds the stored items, and
    whatever the caller then does to that array (any new contents) leaves
    the stored items as they were; after [importIndex(snapshot)] the index
    holds the snapshot's items, and whatever the caller then does to the
    snapshot array leaves them so. *)
Theorem export_import_copy_the_sequence s items :
  stored s = Some items ->
  (exists l s1,
     exportIndex s = Some (Returned l, s1) /\
     read_items (heap s1) l = Some items /\
     stored s1 = Some items /\
     forall rs', exists s2,
       array_assign l rs' s1 = Some (Returned tt, s2) /\ stored s2 = Some items) /\
  (forall snapshot snapshot_items,
     read_items (heap s) snapshot = Some snapshot_items ->
     exists s1,
       importIndex snapshot s = Some (Returned tt, s1) /\
       stored s1 = Some snapshot_items /\
       forall rs', exists s2,
         array_assign snapshot rs' s1 = Some (Returned tt, s2) /\
         stored s2 = Some snapshot_items).
Proof.
  intros Hst. unfold stored in Hst.
  pose proof (read_items_inv _ _ _ Hst) as (rs & Hrs & Ha & Hitems).
  set (l := fresh (dom (heap s))).
  split.
  - exists l, {| heap := <[l := ItemArray rs]> (heap s); this := this s |}.
    split; [exact (exportIndex_run s rs Hrs) |].
    split; [apply read_items_new; [exact Hitems | apply fresh_free_or_array] |].
    split.
    + unfold stored. cbn [heap this].
      apply read_items_frame;
        [exact Hst | eapply fresh_ne; exact Ha | apply fresh_free_or_array].
    + intros rs'. eexists. split.
      * apply (array_assign_run _ l rs). cbn [heap].
        unfold read_array. rewrite lookup_insert_eq. reflexivity.
      * unfold stored. cbn [heap this]. rewrite insert_insert_eq.
        apply read_items_frame;
          [exact Hst | eapply fresh_ne; exact Ha | apply fresh_free_or_array].
  - intros snapshot snapshot_items Hsnap.
    pose proof (read_items_inv _ _ _ Hsnap) as (rs0 & Hrs0 & Ha0 & Hitems0).
    assert (Hne : l <> snapshot) by (eapply fresh_ne; exact Ha0).
    eexists. split; [exact (importIndex_run s snapshot rs0 Hrs0) |].
    fold l.
    assert (Hnew : read_items (<[l := ItemArray rs0]> (heap s)) l = Some snapshot_items).
    { apply read_items_new; [exact Hitems0 | apply fresh_free_or_array]. }
    split; [exact Hnew |].
    intros rs'. eexists. split.
    + apply (array_assign_run _ snapshot rs0). cbn [heap].
      unfold read_array. rewrite lookup_insert_ne by exact Hne.
      rewrite Ha0. reflexivity.
    + unfold stored. cbn [heap this indexedItems].
      apply read_items_frame; [exact Hnew | congruence |].
      right. exists rs0. rewrite lookup_insert_ne by exact Hne. exact Ha0.
Qed.

End ExportImport.

(** C1 as stated fails: the exported array and the index share their
    records.  After [exported = exportIndex()], the assignment
    [exported[0].embedding[0] = 99] changes the stored embedding; and after
    [importIndex(snapshot)], [snapshot[0].embedding[0] = 99] does. *)
Lemma export_import_share_records :
  (exists exported s1 s2,
     exportIndex example_index = Some (Returned exported, s1) /\
     embedding_assign exported 0 0 99 s1 = Some (Returned tt, s2) /\
     stored_embeddings example_index
       = Some [[1; 1]; [3; 1]; [2; 1]]%float /\
     stored_embeddings s2
       = Some [[99; 1]; [3; 1]; [2; 1]]%float) /\
  (exists snapshot s1 s2 s3,
     exportIndex example_index = Some (Returned snapshot, s1) /\
     importIndex snapshot s1 = Some (Returned tt, s2) /\
     embedding_assign snapshot 0 0 99 s2 = Some (Returned tt, s3) /\
     stored_embeddings s2
       = Some [[1; 1]; [3; 1]; [2; 1]]%float /\
     stored_embeddings s3
       = Some [[99; 1]; [3; 1]; [2; 1]]%float).
Proof.
  split.
  - eexists _, _, _.
    split; [vm_compute; reflexivity |].
    split; [vm_compute; reflexivity |].
    split; vm_compute; reflexivity.
  - eexists _, _, _, _.
    split; [vm_compute; reflexivity |].
    split; [vm_compute; reflexivity |].
    split; [vm_compute; reflexivity |].
    split; vm_compute; reflexivity.
Qed.

Example example_index_stored : stored example_index = Some example_items.
Proof. vm_compute. reflexivity. Qed.

Lemma export_import_copy_the_sequence_witness :
  exists l s1,
    exportIndex example_index = Some (Returned l, s1) /\
    stored s1 = Some example_items /\
    exists s2, array_assign l [] s1 = Some (Returned tt, s2) /\
               stored s2 = Some example_items.
Proof.
  destruct (export_import_copy_the_sequence example_index example_items)
    as [(l & s1 & H1 & _ & H2 & H3) _].
  - vm_compute. reflexivity.
  - exists l, s1. split; [exact H1 |]. split; [exact H2 |]. exact (H3 []).
Defined.

(** ** [index] when the batch embedding call fails *)

Section IndexFailure.
Context {T : Type}.
Implicit Types (s : state T).

Lemma index_failing_batch_run max_arguments s (items : list T) (replace : bool) e :
  items <> [] ->
  embedBatch (engine (this s)) (map (textExtractor (config (this s))) items) = Err e ->
  index max_arguments items replace s =
  Some (Thrown (Semantic e),
        if replace then
          {| heap := <[fresh (dom (heap s)) := ItemArray []]> (heap s);
             this := {| engine := engine (this s);
                        indexedItems := fresh (dom (heap s));
                        config := config (this s) |} |}
        else s).
Proof.
  intros Hne He. unfold index.
  destruct items as [|x items]; [congruence |]. cbn [length Nat.eqb].
  destruct replace;
    unfold bind, alloc, set_indexedItems, ret, get_this, call, throw;
    cbn [this heap engine config]; rewrite He; reflexivity.
Qed.

(** C2, amended. When the batch embedding call fails, [index] throws that
    error and adds no item.  With [replace = false] the state is exactly
    what it was; with [replace = true] the index has already been emptied
    (its engine and configuration are unchanged). *)
Theorem index_embedBatch_failure max_arguments s (items : list T) (replace : bool) e :
  items <> [] ->
  embedBatch (engine (this s)) (map (textExtractor (config (this s))) items) = Err e ->
  exists s',
    index max_arguments items replace s = Some (Thrown (Semantic e), s') /\
    (replace = false -> s' = s) /\
    (replace = true ->
       stored s' = Some [] /\
       engine (this s') = engine (this s) /\ config (this s') = config (this s)).
Proof.
  intros Hne He. eexists.
  split; [exact (index_failing_batch_run max_arguments s items replace e Hne He) |].
  split.
  - intros ->. reflexivity.
  - intros ->. split; [| split; reflexivity].
    unfold stored, read_items, read_array. cbn [heap this indexedItems].
    rewrite lookup_insert_eq. reflexivity.
Qed.

End IndexFailure.

(** C2 as stated fails: with [replace = true] the index is emptied before
    the embedding call, and stays empty when the call fails. *)
Lemma index_replace_failure_clears :
  exists e s',
    embedBatch example_engine [""] = Err e /\
    index example_max_arguments [""] true example_index
      = Some (Thrown (Semantic e), s') /\
    stored example_index = Some example_items /\
    stored s' = Some [] /\
    stored s' <> stored example_index.
Proof.
  eexists _, _.
  split; [reflexivity |].
  split; [vm_compute; reflexivity |].
  split; [vm_compute; reflexivity |].
  split; [vm_compute; reflexivity |].
  vm_compute. discriminate.
Qed.

Lemma index_embedBatch_failure_witness :
  exists e s',
    index example_max_arguments ["x"; ""] false example_index
      = Some (Thrown (Semantic e), s') /\
    s' = example_index.
Proof.
  destruct (index_embedBatch_failure example_max_arguments example_index ["x"; ""] false
              (mkSemanticError INVALID_INPUT "Text must be a non-empty string" None))
    as (s' & H1 & H2 & _).
  - discriminate.
  - reflexivity.
  - eexists _, s'. split; [exact H1 |]. apply H2. reflexivity.
Defined.

(** ** [search]: threshold and ranks *)

Lemma descending_cons (x y : float) (l : list float) :
  descending (x :: y :: l) <-> (y <=? x)%float = true /\ descending (y :: l).
Proof.
  unfold descending. split.
  - intros H. split; [exact (H 0 x y eq_refl eq_refl) |].
    intros i a b Hi Hj. exact (H (S i) a b Hi Hj).
  - intros [Hxy H] [|i] a b Hi Hj.
    + cbn in Hi, Hj. congruence.
    + exact (H i a b Hi Hj).
Qed.

Lemma descending_StronglySorted (l : list float) :
  descending l <-> StronglySorted (fun x y => (y <=? x)%float = true) l.
Proof.
  split.
  - induction l as [|x l IH]; intros H; [constructor |].
    destruct l as [|y l]; [repeat constructor |].
    apply descending_cons in H as [Hxy H]. specialize (IH H).
    constructor; [exact IH |].
    constructor; [exact Hxy |].
    apply StronglySorted_inv in IH as [_ IH].
    eapply Forall_impl; [exact IH |].
    intros z Hz. cbn beta in Hz |- *. eapply leb_trans; eassumption.
  - intros H i x y Hi Hj. rewrite StronglySorted_lookup in H.
    apply (H i (S i)); [lia | assumption ..].
Qed.

Lemma StronglySorted_filter {A} (R : A -> A -> Prop) (P : A -> bool) (l : list A) :
  StronglySorted R l -> StronglySorted R (List.filter P l).
Proof.
  induction 1 as [|x l Hs IH Hx]; cbn [List.filter]; [constructor |].
  destruct (P x); [| exact IH].
  constructor; [exact IH |].
  rewrite Forall_forall in Hx |- *. intros y Hy.
  apply list_elem_of_In, filter_In in Hy as [Hy _].
  apply Hx, list_elem_of_In, Hy.
Qed.

Lemma descending_filter (P : float -> bool) (l : list float) :
  descending l -> descending (List.filter P l).
Proof.
  rewrite !descending_StronglySorted. apply StronglySorted_filter.
Qed.

Lemma filter_scores (threshold : float) (tk : list (nat * float)) :
  (List.filter (kept threshold) tk).*2 =
  List.filter (fun sc => negb (sc <? threshold)%float) tk.*2.
Proof.
  induction tk as [|[idx sc] tk IH]; [reflexivity |].
  cbn [List.filter fmap list_fmap]. unfold kept at 1. cbn [snd].
  destruct (sc <? threshold)%float; cbn [negb]; [exact IH |].
  cbn [fmap list_fmap]. f_equal. exact IH.
Qed.

Lemma slice_subseteq {A} (from to : Z) (l : list A) (x : A) :
  x ∈ slice from to l -> x ∈ l.
Proof.
  unfold slice. intros H.
  apply list_elem_of_lookup_1 in H as [i Hi].
  apply lookup_take_Some in Hi as [Hi _].
  rewrite lookup_drop in Hi. eapply list_elem_of_lookup_2. exact Hi.
Qed.

(** Every entry [topKSimilar] returns is the score of the candidate at its
    index. *)
Lemma topKSimilar_entries (query : Embedding) (candidates : list Embedding) (k : Z)
    (out : list (nat * float)) :
  topKSimilar query candidates k = Ok out ->
  forall idx sc, (idx, sc) ∈ out ->
    exists c, candidates !! idx = Some c /\ sc = similarity query c.
Proof.
  unfold topKSimilar. intros H idx sc Hin.
  destruct (validateEmbedding query "query"); [| discriminate]. cbn [rbind] in H.
  destruct (length candidates =? 0)%nat.
  { injection H as <-. apply elem_of_nil in Hin. destruct Hin. }
  destruct (k <=? 0)%Z; [discriminate |].
  injection H as <-.
  apply slice_subseteq in Hin. rewrite Array_sort_perm in Hin.
  apply elem_of_lookup_imap_1 in Hin as (i & c & [= -> ->] & Hi).
  exists c. auto.
Qed.

Section Search.
Context {T : Type}.
Implicit Types (s : state T) (items : list (IndexedItem.t T)).

(** What the loop of [search] appends to [results]: one result for each
    entry that passes the threshold test, in order, numbered from [rank]. *)
Lemma search_loop_spec items (threshold : float) (tk : list (nat * float)) :
  forall rank results,
  Forall (fun p => p.1 < length items) tk ->
  exists new,
    search_loop items threshold tk rank results = Returned (results ++ new)%list /\
    map SearchResult.rank new = seq rank (length new) /\
    Forall2 (fun r p => SearchResult.score r = p.2 /\
                        exists it, items !! p.1 = Some it /\
                                   SearchResult.item r = IndexedItem.item it)
      new (List.filter (kept threshold) tk).
Proof.
  induction tk as [|[idx sc] tk IH]; intros rank results Hidx.
  - exists []. rewrite app_nil_r. repeat split; constructor.
  - apply Forall_cons in Hidx as [Hi Hidx]. cbn [fst] in Hi.
    cbn [search_loop List.filter]. unfold kept at 1. cbn [snd].
    destruct (sc <? threshold)%float; cbn [negb].
    + apply IH. exact Hidx.
    + destruct (lookup_lt_is_Some_2 items idx Hi) as [it Hit]. rewrite Hit.
      destruct (IH (S rank) (results ++ [SearchResult.mk (IndexedItem.item it) sc rank])%list Hidx)
        as (new & Hrun & Hrank & Hall).
      exists (SearchResult.mk (IndexedItem.item it) sc rank :: new).
      split; [rewrite Hrun, <- app_assoc; reflexivity |].
      split; [cbn; rewrite Hrank; reflexivity |].
      constructor; [| exact Hall].
      split; [reflexivity |]. exists it. split; [exact Hit | reflexivity].
Qed.

Lemma search_run s items (query : string) (o : PartialSearchConfig T) qr tk :
  stored s = Some items -> items <> [] ->
  embed (engine (this s)) query = Ok qr ->
  topKSimilar (EmbeddingResult.embedding qr) (map IndexedItem.embedding items)
    (topK (merge (config (this s)) o)) = Ok tk ->
  search query o s =
  Some (search_loop items (threshold (merge (config (this s)) o)) tk 1 [], s).
Proof.
  intros Hst Hne He Htk. unfold search, bind, get_this, load.
  unfold stored in Hst. rewrite Hst.
  destruct items as [|it items]; [congruence |]. cbn [length Nat.eqb].
  rewrite He. cbn [call ret]. rewrite Htk. reflexivity.
Qed.

(** C5. [search] returns, leaving the index as it was, one result for each
    entry of the list [topKSimilar] returns whose score is not below the
    effective threshold, and no other: the results carry the surviving
    scores in their order, each with the item stored at its entry's index,
    and their ranks are 1, 2, 3, ... in that order, whatever positions the
    survivors had in the list, and whatever that list is.  When the scores
    of the list are descending, so are those of the results. *)
Theorem search_threshold_and_ranks s items (query : string)
    (overrideConfig : PartialSearchConfig T) qr tk :
  stored s = Some items -> items <> [] ->
  embed (engine (this s)) query = Ok qr ->
  let config := merge (config (this s)) overrideConfig in
  topKSimilar (EmbeddingResult.embedding qr) (map IndexedItem.embedding items)
    (topK config) = Ok tk ->
  exists results,
    search query overrideConfig s = Some (Returned results, s) /\
    map SearchResult.score results =
      List.filter (fun sc => negb (sc <? threshold config)%float) tk.*2 /\
    map SearchResult.rank results = seq 1 (length results) /\
    Forall2 (fun r p => SearchResult.score r = p.2 /\
                        exists it, items !! p.1 = Some it /\
                                   SearchResult.item r = IndexedItem.item it)
      results (List.filter (kept (threshold config)) tk) /\
    (descending tk.*2 -> descending (map SearchResult.score results)).
Proof.
  intros Hst Hne He config Htk.
  assert (Hidx : Forall (fun p : nat * float => p.1 < length items) tk).
  { rewrite Forall_forall. intros [idx sc] Hin.
    destruct (topKSimilar_entries _ _ _ _ Htk idx sc Hin) as (c & Hc & _).
    apply lookup_lt_Some in Hc. rewrite length_map in Hc. exact Hc. }
  destruct (search_loop_spec items (threshold config) tk 1 [] Hidx)
    as (results & Hrun & Hrank & Hall).
  cbn [app] in Hrun.
  assert (Hscore : map SearchResult.score results =
                   List.filter (fun sc => negb (sc <? threshold config)%float) tk.*2).
  { rewrite <- filter_scores.
    clear -Hall. induction Hall as [|r p rs ps [Hr _] _ IH]; [reflexivity |].
    cbn. rewrite Hr. f_equal. exact IH. }
  exists results.
  split; [rewrite (search_run s items query overrideConfig qr tk Hst Hne He Htk);
          fold config; rewrite Hrun; reflexivity |].
  split; [exact Hscore |]. split; [exact Hrank |].
  split; [exact Hall |].
  intros Hdesc. rewrite Hscore. apply descending_filter. exact Hdesc.
Qed.

End Search.

Example example_topK_indices : example_topK.*1 = [2; 1; 0].
Proof. reflexivity. Qed.

Example example_degenerate_stored :
  stored example_degenerate_index = Some example_degenerate_items.
Proof. vm_compute. reflexivity. Qed.

(** With the degenerate index the first entry of the top-k list is dropped
    and the second one kept: the survivor was second, and has rank 1. *)
Lemma search_threshold_and_ranks_witness :
  (exists results,
     topKSimilar [1%float] (map IndexedItem.embedding example_degenerate_items) 10
       = Ok [(0, neg_infinity); (1, nan)] /\
     search "q" no_override example_degenerate_index
       = Some (Returned results, example_degenerate_index) /\
     map SearchResult.item results = ["b"] /\
     map SearchResult.rank results = [1]) /\
  (exists results,
     search "ab" example_override example_index = Some (Returned results, example_index) /\
     map SearchResult.rank results = seq 1 (length results) /\
     descending (map SearchResult.score results) /\
     Forall2 (fun r p => SearchResult.score r = p.2 /\
                         exists it, example_items !! p.1 = Some it /\
                                    SearchResult.item r = IndexedItem.item it)
       results (take 2 example_topK)).
Proof.
  split.
  - destruct (search_threshold_and_ranks example_degenerate_index
                example_degenerate_items "q" no_override
                (EmbeddingResult.mk [1%float] "q") [(0, neg_infinity); (1, nan)])
      as (results & H1 & _ & H3 & H4 & _).
    + vm_compute. reflexivity.
    + discriminate.
    + reflexivity.
    + vm_compute. reflexivity.
    + exists results. split; [vm_compute; reflexivity |]. split; [exact H1 |].
      change (List.filter _ _) with [(1, nan)] in H4.
      destruct results as [|r results]; [inversion H4 |].
      destruct results as [|r' results];
        [| apply Forall2_cons_1 in H4 as [_ H4]; inversion H4].
      apply Forall2_cons_1 in H4 as [(_ & it & Hit & Hr) _].
      injection Hit as <-.
      split; [cbn [map]; rewrite Hr; reflexivity | exact H3].
  - destruct (search_threshold_and_ranks example_index example_items "ab"
                example_override (example_embedding "ab") example_topK)
      as (results & H1 & _ & H3 & H4 & H5).
    + vm_compute. reflexivity.
    + discriminate.
    + reflexivity.
    + vm_compute. reflexivity.
    + exists results. split; [exact H1 |]. split; [exact H3 |].
      split; [| exact H4].
      apply H5, descending_StronglySorted. repeat constructor.
Defined.

(** ** [searchWithFilter] *)

Section SearchWithFilter.
Context {T : Type}.
Implicit Types (s : state T) (items : list (IndexedItem.t T))
  (h : gmap loc (object T)).

Lemma array_filter_spec (filter : gmap string value -> bool) h rs items :
  mapM (read_item h) rs = Some items ->
  exists kept,
    array_filter filter h rs = Some kept /\
    mapM (read_item h) kept =
    Some (List.filter (fun it => filter (default ∅ (IndexedItem.metadata it))) items).
Proof.
  rewrite mapM_Some. induction 1 as [|r it rs items Hr _ (kept & Hk & Hitems)].
  - exists []. split; reflexivity.
  - cbn [array_filter List.filter]. unfold filter_item. rewrite Hr, Hk. cbn.
    destruct (filter (default ∅ (IndexedItem.metadata it))).
    + exists (r :: kept). split; [reflexivity |]. cbn. rewrite Hr, Hitems. reflexivity.
    + exists kept. split; [reflexivity | exact Hitems].
Qed.

(** [search] never gets stuck on a readable index and never changes the
    state; on an empty index it throws the empty-index error. *)
Lemma search_total s items (query : string) (o : PartialSearchConfig T) :
  stored s = Some items ->
  exists r, search query o s = Some (r, s) /\
            (items = [] -> r = Thrown (Semantic empty_index_error)).
Proof.
  intros Hst. unfold search, bind, get_this, load.
  unfold stored in Hst. rewrite Hst.
  destruct items as [|it items]; cbn [length Nat.eqb].
  - eexists. split; [reflexivity | reflexivity].
  - destruct (embed (engine (this s)) query) as [qr | e]; cbn [call ret throw].
    + destruct (topKSimilar _ _ _) as [tk | e]; cbn [call ret throw];
        (eexists; split; [reflexivity | discriminate]).
    + eexists; split; [reflexivity | discriminate].
Qed.

(** C6. [searchWithFilter] returns or throws what [search] does on the
    restricted index, the state [s1] whose items are those whose metadata
    satisfies the predicate, and in both cases ends in a state whose
    instance fields and stored items are those before the call.  When no
    item satisfies the predicate it throws the error [search] throws on an
    empty index. *)
Theorem searchWithFilter_restores s items (query : string)
    (filter : gmap string value -> bool) (config_ : PartialSearchConfig T) :
  stored s = Some items ->
  (exists r s1 s',
     searchWithFilter query filter config_ s = Some (r, s') /\
     stored s1 =
       Some (List.filter (fun it => filter (default ∅ (IndexedItem.metadata it))) items) /\
     search query config_ s1 = Some (r, s1) /\
     this s' = this s /\
     stored s' = Some items /\
     heap s' !! indexedItems (this s) = heap s !! indexedItems (this s) /\
     (Forall (fun it => filter (default ∅ (IndexedItem.metadata it)) = false) items ->
      r = Thrown (Semantic empty_index_error))) /\
  (forall s0, stored s0 = Some [] ->
     search query config_ s0 = Some (Thrown (Semantic empty_index_error), s0)).
Proof.
  intros Hst. split.
  - pose proof Hst as Hst'. unfold stored in Hst'.
    apply read_items_inv in Hst' as (rs & Hrs & Ha & Hitems).
    destruct (array_filter_spec filter (heap s) rs items Hitems) as (kept & Hk & Hkept).
    set (l := fresh (dom (heap s))).
    set (s1 := {| heap := <[l := ItemArray kept]> (heap s);
                  this := {| engine := engine (this s);
                             indexedItems := l;
                             config := config (this s) |} |}).
    assert (Hst1 : stored s1 =
              Some (List.filter (fun it => filter (default ∅ (IndexedItem.metadata it))) items)).
    { unfold stored, s1. cbn [heap this indexedItems].
      apply read_items_new; [exact Hkept | apply fresh_free_or_array]. }
    destruct (search_total s1 _ query config_ Hst1) as (r & Hr & Hempty).
    exists r, s1,
      {| heap := heap s1;
         this := {| engine := engine (this s1);
                    indexedItems := indexedItems (this s);
                    config := config (this s1) |} |}.
    split.
    { unfold searchWithFilter, bind, get_this, load, alloc, set_indexedItems, try_finally.
      rewrite Hrs. cbn [mbind option_bind]. rewrite Hk. cbn [heap this].
      fold l. fold s1. rewrite Hr. reflexivity. }
    split; [exact Hst1 |]. split; [exact Hr |].
    assert (Hne : l <> indexedItems (this s)) by (eapply fresh_ne; exact Ha).
    split; [cbn; apply this_eta |].
    split.
    { unfold stored. cbn [heap this indexedItems s1].
      apply read_items_frame; [exact Hst | exact Hne | apply fresh_free_or_array]. }
    split; [cbn [heap s1]; apply lookup_insert_ne; exact Hne |].
    intros Hnone. apply Hempty.
    clear -Hnone. induction Hnone as [|it items Hit _ IH]; [reflexivity |].
    cbn [List.filter]. rewrite Hit. exact IH.
  - intros s0 Hs0.
    destruct (search_total s0 [] query config_ Hs0) as (r & Hr & Hempty).
    rewrite Hr, (Hempty eq_refl). reflexivity.
Qed.

End SearchWithFilter.

Lemma searchWithFilter_restores_witness :
  exists r s',
    searchWithFilter "ab" (fun _ => false) no_override example_index = Some (r, s') /\
    this s' = this example_index /\
    stored s' = Some example_items /\
    r = Thrown (Semantic empty_index_error).
Proof.
  destruct (searchWithFilter_restores example_index example_items "ab"
              (fun _ => false) no_override)
    as [(r & s1 & s' & H1 & _ & _ & H2 & H3 & _ & H4) _].
  - vm_compute. reflexivity.
  - exists r, s'. split; [exact H1 |]. split; [exact H2 |]. split; [exact H3 |].
    apply H4. repeat constructor.
Defined.

(** * Further properties of the vector operations *)

(** ** More binary64 facts *)

Lemma SFmul_comm x y : SF64mul x y = SF64mul y x.
Proof.
  unfold SF64mul.
  destruct x as [sx|sx| |sx mx ex], y as [sy|sy| |sy my ey]; cbn [SFmul];
    rewrite ?(xorb_comm sx sy); try reflexivity.
  rewrite (Pos.mul_comm mx my), (Z.add_comm ex ey). reflexivity.
Qed.

Lemma mul_comm (x y : float) : (x * y = y * x)%float.
Proof. apply Prim2SF_inj. rewrite !FloatAxioms.mul_spec. apply SFmul_comm. Qed.

Lemma binary_round_aux_not_negative m e l :
  SFltb (binary_round_aux prec emax false m e l) (S754_zero false) = false.
Proof.
  unfold binary_round_aux.
  destruct (shr_fexp prec emax m e l) as [mrs' e'].
  destruct (shr_fexp prec emax _ e' loc_Exact) as [mrs'' e''].
  destruct (shr_m mrs'') as [|p|p]; try reflexivity.
  destruct (e'' <=? emax - prec)%Z; reflexivity.
Qed.

(** A square root is never below zero (it may be NaN). *)
Lemma sqrt_not_negative (x : float) : (PrimFloat.sqrt x <? 0)%float = false.
Proof.
  rewrite FloatAxioms.ltb_spec, FloatAxioms.sqrt_spec.
  change (Prim2SF 0) with (S754_zero false). unfold SF64sqrt, SFsqrt.
  destruct (Prim2SF x) as [s|[]| |[] m e]; try reflexivity.
  destruct (SFsqrt_core_binary prec emax (Z.pos m) e) as [[mz ez] lz].
  apply binary_round_aux_not_negative.
Qed.

Lemma eqb_zero_spec (x : float) :
  (x =? 0)%float = true <-> exists s, Prim2SF x = S754_zero s.
Proof.
  rewrite FloatAxioms.eqb_spec. change (Prim2SF 0) with (S754_zero false).
  unfold SFeqb. destruct (Prim2SF x) as [s|[]| |[] m e]; cbn [SFcompare];
    split; try discriminate; try (intros [s' H]; discriminate H); eauto.
Qed.

Lemma square_of_zero (x : float) : (x =? 0)%float = true -> (x * x)%float = 0%float.
Proof.
  intros H. apply eqb_zero_spec in H as [s Hs].
  apply Prim2SF_inj. rewrite FloatAxioms.mul_spec, Hs.
  destruct s; reflexivity.
Qed.

Lemma binary_round_aux_opp s m e l :
  SFopp (binary_round_aux prec emax s m e l) = binary_round_aux prec emax (negb s) m e l.
Proof.
  unfold binary_round_aux.
  destruct (shr_fexp prec emax m e l) as [mrs' e'].
  destruct (shr_fexp prec emax _ e' loc_Exact) as [mrs'' e''].
  destruct (shr_m mrs'') as [|p|p]; try reflexivity.
  destruct (e'' <=? emax - prec)%Z; reflexivity.
Qed.

Lemma binary_round_opp s m e :
  SFopp (binary_round prec emax s m e) = binary_round prec emax (negb s) m e.
Proof.
  unfold binary_round. destruct (shl_align m e _) as [mz ez].
  apply binary_round_aux_opp.
Qed.

Lemma binary_normalize_opp d e :
  d <> 0%Z ->
  binary_normalize prec emax (- d) e false = SFopp (binary_normalize prec emax d e false).
Proof.
  intros Hd. destruct d as [|p|p]; [congruence | |].
  - change (- Z.pos p)%Z with (Z.neg p). cbn [binary_normalize].
    rewrite binary_round_opp. reflexivity.
  - change (- Z.neg p)%Z with (Z.pos p). cbn [binary_normalize].
    rewrite binary_round_opp. reflexivity.
Qed.

Lemma SFmul_opp_opp x : SF64mul (SFopp x) (SFopp x) = SF64mul x x.
Proof. destruct x as [[]|[]| |[] m e]; reflexivity. Qed.

Lemma SFsub_square_sym x y :
  SF64mul (SF64sub x y) (SF64sub x y) = SF64mul (SF64sub y x) (SF64sub y x).
Proof.
  destruct x as [sx|sx| |sx mx ex], y as [sy|sy| |sy my ey];
    try (destruct sx; try destruct sy; reflexivity);
    try (destruct sy; reflexivity); try reflexivity.
  unfold SF64sub, SFsub. rewrite (Z.min_comm ey ex).
  set (ez := Z.min ex ey).
  set (a := cond_Zopp sx (Z.pos (fst (shl_align mx ex ez)))).
  set (b := cond_Zopp sy (Z.pos (fst (shl_align my ey ez)))).
  destruct (Z.eq_dec (a - b)%Z 0%Z) as [E | E].
  - replace (b - a)%Z with 0%Z by lia. rewrite E. reflexivity.
  - replace (b - a)%Z with (- (a - b))%Z by lia.
    rewrite (binary_normalize_opp (a - b)%Z ez E). symmetry. apply SFmul_opp_opp.
Qed.

Lemma sub_square_sym (x y : float) :
  ((x - y) * (x - y) = (y - x) * (y - x))%float.
Proof.
  apply Prim2SF_inj. rewrite !FloatAxioms.mul_spec, !FloatAxioms.sub_spec.
  apply SFsub_square_sym.
Qed.

Lemma is_finite_spec (x : float) :
  PrimFloat.is_finite x = true ->
  (exists s, Prim2SF x = S754_zero s) \/ (exists s m e, Prim2SF x = S754_finite s m e).
Proof.
  unfold PrimFloat.is_finite, PrimFloat.is_infinity. intros H.
  apply negb_true_iff, orb_false_iff in H as [Hnan Hinf].
  apply not_nan_spec in Hnan.
  rewrite FloatAxioms.eqb_spec, FloatAxioms.abs_spec in Hinf.
  destruct (Prim2SF x) as [s|s| |s m e]; eauto.
  - destruct s; discriminate Hinf.
  - congruence.
Qed.

Lemma sub_self (x : float) : PrimFloat.is_finite x = true -> (x - x)%float = 0%float.
Proof.
  intros H. apply Prim2SF_inj. rewrite FloatAxioms.sub_spec.
  change (Prim2SF 0) with (S754_zero false).
  destruct (is_finite_spec x H) as [[s ->] | (s & m & e & ->)].
  - destruct s; reflexivity.
  - unfold SF64sub, SFsub. rewrite Z.sub_diag. reflexivity.
Qed.

(** ** Symmetry of the pairwise operations *)

Lemma fold_left_ext_in {A B} (f g : A -> B -> A) (l : list B) (z : A) :
  (forall a b, f a b = g a b) -> fold_left f l z = fold_left g l z.
Proof.
  intros H. revert z. induction l as [|b l IH]; intros z; [reflexivity |].
  cbn [fold_left]. rewrite H. apply IH.
Qed.

Lemma same_outcome_guards {A} (a b : Embedding) (f g : result A) :
  (a <> [] -> b <> [] -> length a = length b -> same_outcome f g) ->
  same_outcome
    (validateEmbedding a "first embedding" ;;!
     validateEmbedding b "second embedding" ;;!
     validateDimensions a b ;;! f)
    (validateEmbedding b "first embedding" ;;!
     validateEmbedding a "second embedding" ;;!
     validateDimensions b a ;;! g).
Proof.
  intros H.
  destruct a as [|x a], b as [|y b]; try reflexivity.
  cbn [validateEmbedding length Nat.eqb rbind]. unfold validateDimensions.
  rewrite (Nat.eqb_sym (length (y :: b))).
  destruct (Nat.eqb_spec (length (x :: a)) (length (y :: b))) as [E | E];
    [| reflexivity].
  cbn [negb rbind]. apply H; [discriminate .. | exact E].
Qed.

Lemma dot_sum_comm (a b : Embedding) (l : list nat) (z : float) :
  fold_left (fun sum i => sum + get a i * get b i)%float l z =
  fold_left (fun sum i => sum + get b i * get a i)%float l z.
Proof. apply fold_left_ext_in. intros s i. rewrite mul_comm. reflexivity. Qed.

Lemma dotProduct_comm_eq (a b : Embedding) :
  length a = length b -> a <> [] -> dotProduct a b = dotProduct b a.
Proof.
  intros E Ha.
  assert (Hb : b <> []) by (destruct a, b; try discriminate; congruence).
  unfold dotProduct.
  rewrite !(validateEmbedding_nonempty a), !(validateEmbedding_nonempty b) by assumption.
  rewrite (validateDimensions_same a b E), (validateDimensions_same b a (eq_sym E)).
  cbn [rbind]. rewrite E, dot_sum_comm. reflexivity.
Qed.

(** X1. [dotProduct], [cosineSimilarity] and [euclideanDistance] are
    symmetric in their two arguments, whatever the vectors: swapping them
    gives the same number, bit for bit, or an error of the same code. *)
Theorem pairwise_operations_symmetric (a b : Embedding) :
  same_outcome (dotProduct a b) (dotProduct b a) /\
  same_outcome (cosineSimilarity a b) (cosineSimilarity b a) /\
  same_outcome (euclideanDistance a b) (euclideanDistance b a).
Proof.
  split; [| split].
  - unfold dotProduct. apply same_outcome_guards. intros _ _ E.
    cbn [same_outcome]. rewrite E, dot_sum_comm. reflexivity.
  - unfold cosineSimilarity. apply same_outcome_guards. intros Ha Hb E.
    rewrite (dotProduct_comm_eq a b E Ha).
    destruct (dotProduct b a) as [dot | e]; [| reflexivity].
    unfold magnitude.
    rewrite (validateEmbedding_nonempty a), (validateEmbedding_nonempty b) by assumption.
    cbn [rbind]. rewrite orb_comm.
    destruct (_ || _); [reflexivity |].
    cbn [same_outcome]. rewrite mul_comm. reflexivity.
  - unfold euclideanDistance. apply same_outcome_guards. intros _ _ E.
    cbn [same_outcome]. rewrite E. f_equal.
    apply fold_left_ext_in. intros s i. cbn zeta.
    rewrite sub_square_sym. reflexivity.
Qed.

(** ** Magnitudes and distances *)

(** X2. A magnitude or a distance is never below zero: [magnitude] and
    [euclideanDistance] return a square root, which is zero, positive,
    infinite or NaN. *)
Theorem magnitude_distance_not_negative (a b : Embedding) (m : float) :
  magnitude a = Ok m \/ euclideanDistance a b = Ok m ->
  (m <? 0)%float = false.
Proof.
  unfold magnitude, euclideanDistance. intros [H | H].
  - destruct (validateEmbedding a "embedding"); [| discriminate].
    injection H as <-. apply sqrt_not_negative.
  - destruct (validateEmbedding a "first embedding"); [| discriminate].
    destruct (validateEmbedding b "second embedding"); [| discriminate].
    destruct (validateDimensions a b); [| discriminate].
    injection H as <-. apply sqrt_not_negative.
Qed.

Lemma magnitude_distance_not_negative_witness :
  (5 <? 0)%float = false.
Proof.
  apply (magnitude_distance_not_negative [3; 4]%float [] 5%float).
  left. reflexivity.
Defined.

Lemma get_Forall (P : float -> Prop) (v : Embedding) (i : nat) :
  Forall P v -> i < length v -> P (get v i).
Proof.
  intros H Hi. unfold get.
  destruct (lookup_lt_is_Some_2 v i Hi) as [x Hx].
  rewrite (nth_lookup_Some v i nan x Hx).
  rewrite Forall_forall in H. apply H. eapply list_elem_of_lookup_2. exact Hx.
Qed.

Lemma sum_of_squares_zero (v : Embedding) (l : list nat) :
  Forall (fun x => (x =? 0)%float = true) v ->
  Forall (fun i => i < length v) l ->
  fold_left (fun sum i => sum + get v i * get v i)%float l 0%float = 0%float.
Proof.
  intros Hv. induction 1 as [|i l Hi _ IH]; [reflexivity |].
  cbn [fold_left].
  rewrite (square_of_zero _ (get_Forall _ v i Hv Hi)). exact IH.
Qed.

Lemma seq_below (n : nat) : Forall (fun i => i < n) (seq 0 n).
Proof. rewrite Forall_forall. intros i Hi. apply elem_of_seq in Hi. lia. Qed.

Lemma magnitude_zero_vector (v : Embedding) :
  v <> [] -> Forall (fun x => (x =? 0)%float = true) v -> magnitude v = Ok 0%float.
Proof.
  intros Hne Hv. unfold magnitude.
  rewrite (validateEmbedding_nonempty v _ Hne). cbn [rbind].
  rewrite (sum_of_squares_zero v _ Hv (seq_below _)). reflexivity.
Qed.

(** X3. A zero vector of any dimension (every component [0] or [-0]) has
    magnitude exactly [0]; [normalize] rejects it with [COMPUTATION_FAILED],
    and so does [cosineSimilarity] against any vector of the same length,
    on either side. *)
Theorem zero_vector_rejected (v : Embedding) :
  v <> [] -> Forall (fun x => (x =? 0)%float = true) v ->
  magnitude v = Ok 0%float /\
  is_err (normalize v) COMPUTATION_FAILED /\
  forall b, length b = length v ->
    is_err (cosineSimilarity v b) COMPUTATION_FAILED /\
    is_err (cosineSimilarity b v) COMPUTATION_FAILED.
Proof.
  intros Hne Hv.
  pose proof (magnitude_zero_vector v Hne Hv) as Hmag.
  split; [exact Hmag |]. split.
  - unfold normalize. rewrite (validateEmbedding_nonempty v _ Hne), Hmag.
    eexists. split; reflexivity.
  - intros b Hlen.
    assert (Hb : b <> []) by (destruct v, b; try discriminate; congruence).
    assert (Hmb : exists mb, magnitude b = Ok mb).
    { unfold magnitude. rewrite (validateEmbedding_nonempty b _ Hb). eauto. }
    destruct Hmb as [mb Hmb].
    assert (Hdot : forall x y : Embedding, x <> [] -> y <> [] -> length x = length y ->
                     exists d, dotProduct x y = Ok d).
    { intros x y Hx Hy E. unfold dotProduct.
      rewrite (validateEmbedding_nonempty x _ Hx), (validateEmbedding_nonempty y _ Hy),
        (validateDimensions_same x y E). eauto. }
    split; unfold cosineSimilarity.
    + rewrite (validateEmbedding_nonempty v _ Hne), (validateEmbedding_nonempty b _ Hb),
        (validateDimensions_same v b (eq_sym Hlen)).
      destruct (Hdot v b Hne Hb (eq_sym Hlen)) as [d ->].
      rewrite Hmag, Hmb. cbn [rbind]. change (0 =? 0)%float with true. cbn [orb].
      eexists. split; reflexivity.
    + rewrite (validateEmbedding_nonempty v _ Hne), (validateEmbedding_nonempty b _ Hb),
        (validateDimensions_same b v Hlen).
      destruct (Hdot b v Hb Hne Hlen) as [d ->].
      rewrite Hmag, Hmb. cbn [rbind]. change (0 =? 0)%float with true.
      rewrite orb_true_r. eexists. split; reflexivity.
Qed.

Lemma zero_vector_rejected_witness :
  is_err (normalize [0; -0; 0]%float) COMPUTATION_FAILED.
Proof.
  apply (zero_vector_rejected [0; -0; 0]%float).
  - discriminate.
  - repeat constructor.
Defined.

(** X4. The distance from a vector to itself is exactly [0] when all its
    components are finite (an infinite or NaN component makes it NaN). *)
Theorem euclideanDistance_self (a : Embedding) :
  a <> [] -> Forall (fun x => PrimFloat.is_finite x = true) a ->
  euclideanDistance a a = Ok 0%float.
Proof.
  intros Hne Hfin. unfold euclideanDistance.
  rewrite !(validateEmbedding_nonempty a) by assumption.
  rewrite (validateDimensions_same a a eq_refl).
  cbn [rbind].
  assert (H : forall l, Forall (fun i => i < length a) l ->
            fold_left (fun sum i => let diff := (get a i - get a i)%float in
                                    (sum + diff * diff)%float) l 0%float = 0%float).
  { induction 1 as [|i l Hi _ IH]; [reflexivity |].
    cbn [fold_left]. cbn zeta.
    rewrite (sub_self _ (get_Forall _ a i Hfin Hi)). exact IH. }
  pose proof (H _ (seq_below (length a))) as H0.
  cbn zeta in H0 |- *. rewrite H0. reflexivity.
Qed.

Lemma euclideanDistance_self_witness :
  euclideanDistance [1; 2; 3]%float [1; 2; 3]%float = Ok 0%float.
Proof.
  apply (euclideanDistance_self [1; 2; 3]%float).
  - discriminate.
  - repeat constructor.
Defined.

Example euclideanDistance_self_infinite :
  euclideanDistance [infinity] [infinity] = Ok nan.
Proof. reflexivity. Qed.

(** ** [centroid]: dimension and components *)

Lemma centroid_add_prefix (acc embedding : Embedding) (n : nat) :
  n <= length acc ->
  let r := fold_left (fun r i => <[i := (get r i + get embedding i)%float]> r)
             (seq 0 n) acc in
  length r = length acc /\
  forall j, r !! j = if decide (j < n)
                     then Some (get acc j + get embedding j)%float
                     else acc !! j.
Proof.
  induction n as [|n IH]; intros Hn; cbn zeta.
  - split; [reflexivity |]. intros j. destruct (decide (j < 0)); [lia | reflexivity].
  - rewrite seq_S, fold_left_app. cbn [fold_left Nat.add].
    destruct (IH ltac:(lia)) as [Hlen Hlook]. cbn zeta in Hlen, Hlook.
    set (r := fold_left _ (seq 0 n) acc) in *.
    unfold Embedding in *.
    split; [rewrite length_insert; exact Hlen |].
    intros j. destruct (decide (j = n)) as [-> | Hne].
    + rewrite list_lookup_insert_eq by lia.
      destruct (decide (n < S n)); [| lia].
      specialize (Hlook n). destruct (decide (n < n)); [lia |].
      destruct (lookup_lt_is_Some_2 acc n ltac:(lia)) as [x Hx].
      rewrite Hx in Hlook.
      assert (E : get r n = get acc n).
      { unfold get. rewrite (nth_lookup_Some r n nan x Hlook).
        rewrite (nth_lookup_Some acc n nan x Hx). reflexivity. }
      rewrite E. reflexivity.
    + rewrite list_lookup_insert_ne by congruence. rewrite Hlook.
      destruct (decide (j < n)), (decide (j < S n)); try lia; reflexivity.
Qed.

Lemma centroid_add_spec (dim : nat) (acc embedding : Embedding) :
  length acc = dim ->
  length (centroid_add dim acc embedding) = dim /\
  forall j, j < dim ->
    get (centroid_add dim acc embedding) j = (get acc j + get embedding j)%float.
Proof.
  intros Hlen. unfold centroid_add.
  destruct (centroid_add_prefix acc embedding dim ltac:(lia)) as [H1 H2].
  cbn zeta in H1, H2. split; [lia |].
  intros j Hj. specialize (H2 j). destruct (decide (j < dim)); [| lia].
  unfold get at 1. apply nth_lookup_Some. exact H2.
Qed.

Lemma centroid_loop_spec (dim : nat) (embeddings : list Embedding) :
  forall acc, length acc = dim ->
  Forall (fun v => length v = dim) embeddings ->
  exists r, centroid_loop dim acc embeddings = Ok r /\ length r = dim /\
    forall j, j < dim ->
      get r j = fold_left (fun s v => s + get v j)%float embeddings (get acc j).
Proof.
  induction embeddings as [|v vs IH]; intros acc Hacc Hall.
  - exists acc. auto.
  - apply Forall_cons in Hall as [Hv Hall]. cbn [centroid_loop].
    apply Nat.eqb_eq in Hv. rewrite Hv. cbn [negb].
    destruct (centroid_add_spec dim acc v Hacc) as [Hlen Hget].
    destruct (IH _ Hlen Hall) as (r & Hr & Hrlen & Hrget).
    exists r. split; [exact Hr |]. split; [exact Hrlen |].
    intros j Hj. rewrite (Hrget j Hj), (Hget j Hj). reflexivity.
Qed.

Lemma centroid_loop_lengths (dim : nat) (embeddings : list Embedding) :
  forall acc r, centroid_loop dim acc embeddings = Ok r ->
  Forall (fun v => length v = dim) embeddings.
Proof.
  induction embeddings as [|v vs IH]; intros acc r H; [constructor |].
  cbn [centroid_loop] in H.
  destruct (Nat.eqb_spec (length v) dim) as [E | E]; [| discriminate].
  constructor; [exact E | eapply IH; exact H].
Qed.

Lemma lookup_map {A B} (f : A -> B) (l : list A) (i : nat) :
  map f l !! i = f <$> l !! i.
Proof.
  revert i. induction l as [|x l IH]; intros [|i]; try reflexivity. apply IH.
Qed.

(** X5. [centroid] succeeds exactly when the list is non-empty and every
    vector has the length of the first.  Its result then has that length,
    and its component [j] is the sum of the components [j], taken from [0]
    in the order of the list, divided by the number of vectors. *)
Theorem centroid_components (embeddings : list Embedding) :
  (is_Some (head embeddings) /\
   Forall (fun v => length v = length (default [] (head embeddings))) embeddings) <->
  exists c,
    centroid embeddings = Ok c /\
    length c = length (default [] (head embeddings)) /\
    forall j, j < length c ->
      c !! j = Some (fold_left (fun s v => s + get v j)%float embeddings 0
                     / of_nat (length embeddings))%float.
Proof.
  destruct embeddings as [|first rest].
  - split; [intros [[? H] _]; discriminate H | intros (c & H & _); discriminate H].
  - cbn [head default]. unfold centroid. split.
    + intros [_ Hall].
      destruct (centroid_loop_spec (length first) (first :: rest)
                  (replicate (length first) 0%float) (length_replicate _ _) Hall)
        as (r & Hr & Hlen & Hget).
      rewrite Hr. cbn [rbind]. eexists. split; [reflexivity |].
      rewrite length_map. split; [exact Hlen |].
      intros j Hj. rewrite Hlen in Hj.
      unfold Embedding in *. rewrite lookup_map.
      destruct (lookup_lt_is_Some_2 r j ltac:(lia)) as [x Hx]. rewrite Hx.
      cbn [fmap option_fmap option_map]. f_equal. f_equal.
      assert (E1 : get r j = x) by (apply nth_lookup_Some; exact Hx).
      assert (E2 : get (replicate (length first) 0%float) j = 0%float)
        by (apply nth_lookup_Some, lookup_replicate_2; exact Hj).
      rewrite <- E1, (Hget j Hj), E2. reflexivity.
    + intros (c & H & _).
      destruct (centroid_loop _ _ _) as [r | e] eqn:E; [| discriminate].
      split; [eauto |]. eapply centroid_loop_lengths. exact E.
Qed.

(** * Further properties of [topKSimilar] *)

Lemma topKSimilar_run (query : Embedding) (candidates : list Embedding) (k : Z) :
  query <> [] -> (0 < k)%Z ->
  topKSimilar query candidates k =
  Ok (take (Z.to_nat (Z.min k (Z.of_nat (length candidates))))
        (Array_sort (fun a b : nat * float => (b.2 - a.2)%float)
           (imap (fun idx c => (idx, similarity query c)) candidates))).
Proof.
  intros Hq Hk. unfold topKSimilar.
  rewrite (validateEmbedding_nonempty _ _ Hq). cbn [rbind].
  destruct candidates as [|c cs].
  { change (imap _ []) with (@nil (nat * float)).
    cbn [length Nat.eqb Array_sort foldr]. rewrite take_nil. reflexivity. }
  cbn [length Nat.eqb].
  destruct (Z.leb_spec k 0) as [? | _]; [lia |].
  rewrite slice_prefix by lia.
  rewrite Array_sort_length, length_imap. reflexivity.
Qed.

Lemma imap_indices {A B} (f : A -> B) (l : list A) :
  (imap (fun idx c => (idx, f c)) l).*1 = seq 0 (length l).
Proof.
  apply list_eq. intros i.
  rewrite list_lookup_fmap, list_lookup_imap.
  destruct (l !! i) as [x|] eqn:E; cbn.
  - symmetry. apply lookup_seq. split; [reflexivity |].
    eapply lookup_lt_Some. exact E.
  - symmetry. apply lookup_seq_ge. apply lookup_ge_None in E. lia.
Qed.

(** X6. For a non-empty query and [k > 0], whatever the candidates and
    their scores (NaN included), [topKSimilar] returns exactly
    [min(k, n)] entries; no candidate appears twice, and each entry pairs
    an index with the score of the candidate at that index.  With
    [k >= n] every candidate is returned. *)
Theorem topKSimilar_selection (query : Embedding) (candidates : list Embedding) (k : Z) :
  query <> [] -> (0 < k)%Z ->
  exists out,
    topKSimilar query candidates k = Ok out /\
    Z.of_nat (length out) = Z.min k (Z.of_nat (length candidates)) /\
    NoDup out.*1 /\
    (forall idx sc, (idx, sc) ∈ out ->
       exists c, candidates !! idx = Some c /\ sc = similarity query c) /\
    ((Z.of_nat (length candidates) <= k)%Z ->
     out ≡ₚ imap (fun idx c => (idx, similarity query c)) candidates).
Proof.
  intros Hq Hk. eexists. split; [apply topKSimilar_run; assumption |].
  set (similarities := imap (fun idx c => (idx, similarity query c)) candidates).
  set (sorted := Array_sort (fun a b : nat * float => (b.2 - a.2)%float) similarities).
  set (n := Z.to_nat (Z.min k (Z.of_nat (length candidates)))).
  assert (Hperm : sorted ≡ₚ similarities) by apply Array_sort_perm.
  assert (Hlen : length sorted = length candidates).
  { unfold sorted. rewrite Array_sort_length. apply length_imap. }
  split; [rewrite length_take, Hlen; unfold n; lia |].
  split; [| split].
  - rewrite fmap_take. eapply sublist_NoDup; [| apply sublist_take].
    rewrite Hperm. unfold similarities. rewrite imap_indices. apply NoDup_seq.
  - intros idx sc Hin.
    assert (Hin' : (idx, sc) ∈ similarities).
    { rewrite <- Hperm. eapply subseteq_take. exact Hin. }
    apply elem_of_lookup_imap_1 in Hin' as (i & c & [= -> ->] & Hi).
    exists c. auto.
  - intros Hge. rewrite take_ge by (unfold n; lia). exact Hperm.
Qed.

Lemma topKSimilar_selection_witness :
  exists out,
    topKSimilar [1; 0]%float [[0; 1]; [nan; 0]; [1]; [1; 1]]%float 3 = Ok out /\
    Z.of_nat (length out) = 3%Z /\ NoDup out.*1.
Proof.
  destruct (topKSimilar_selection [1; 0]%float
              [[0; 1]; [nan; 0]; [1]; [1; 1]]%float 3)
    as (out & H1 & H2 & H3 & _).
  - discriminate.
  - lia.
  - exists out. split; [exact H1 |]. split; [exact H2 | exact H3].
Defined.

(** X7. The top [k] entries are the first [k] of the top [k'] entries for
    every [k' >= k]: asking for more results never changes the earlier
    ones. *)
Theorem topKSimilar_prefix (query : Embedding) (candidates : list Embedding) (k k' : Z) :
  query <> [] -> (0 < k)%Z -> (k <= k')%Z ->
  exists out out',
    topKSimilar query candidates k = Ok out /\
    topKSimilar query candidates k' = Ok out' /\
    out = take (length out) out'.
Proof.
  intros Hq Hk Hk'. eexists _, _.
  split; [apply topKSimilar_run; assumption |].
  split; [apply topKSimilar_run; [assumption | lia] |].
  rewrite length_take, take_take. f_equal.
  rewrite Array_sort_length, length_imap. lia.
Qed.

Lemma topKSimilar_prefix_witness :
  exists out out',
    topKSimilar [1; 0]%float [[0; 1]; [1; 1]; [1; 0]]%float 1 = Ok out /\
    topKSimilar [1; 0]%float [[0; 1]; [1; 1]; [1; 0]]%float 2 = Ok out' /\
    out = take (length out) out'.
Proof.
  apply (topKSimilar_prefix [1; 0]%float [[0; 1]; [1; 1]; [1; 0]]%float 1 2).
  - discriminate.
  - lia.
  - lia.
Defined.

Lemma similarity_invalid_candidate (query c : Embedding) :
  query <> [] -> c = [] \/ length c <> length query ->
  similarity query c = neg_infinity.
Proof.
  intros Hq Hc. unfold similarity, cosineSimilarity.
  rewrite (validateEmbedding_nonempty query _ Hq). cbn [rbind].
  destruct c as [|x c]; [reflexivity |].
  destruct Hc as [Hc | Hc]; [discriminate |].
  cbn [validateEmbedding length Nat.eqb rbind].
  rewrite validateDimensions_differ by (intros E; apply Hc; symmetry; exact E).
  reflexivity.
Qed.

Lemma similarity_zero_candidate (query c : Embedding) :
  query <> [] -> length c = length query ->
  Forall (fun x => (x =? 0)%float = true) c ->
  similarity query c = neg_infinity.
Proof.
  intros Hq Hlen Hz.
  assert (Hc : c <> []) by (destruct query, c; try discriminate; congruence).
  unfold similarity, cosineSimilarity, dotProduct.
  rewrite !(validateEmbedding_nonempty query), !(validateEmbedding_nonempty c) by assumption.
  rewrite (validateDimensions_same query c (eq_sym Hlen)). cbn [rbind].
  rewrite (magnitude_zero_vector c Hc Hz).
  unfold magnitude. rewrite (validateEmbedding_nonempty query _ Hq). cbn [rbind].
  change (0 =? 0)%float with true. rewrite orb_true_r. reflexivity.
Qed.

(** X8. A candidate [cosineSimilarity] rejects never aborts the selection:
    for a non-empty query and [k > 0], [topKSimilar] returns, and every
    entry whose candidate is empty, of another length than the query, or a
    zero vector has the score [-Infinity]. *)
Theorem topKSimilar_bad_candidates (query : Embedding) (candidates : list Embedding)
    (k : Z) :
  query <> [] -> (0 < k)%Z ->
  exists out,
    topKSimilar query candidates k = Ok out /\
    forall idx sc (c : Embedding), (idx, sc) ∈ out -> candidates !! idx = Some c ->
      c = [] \/ length c <> length query \/
      Forall (fun x => (x =? 0)%float = true) c ->
      sc = neg_infinity.
Proof.
  intros Hq Hk. eexists. split; [apply topKSimilar_run; assumption |].
  intros idx sc c Hin Hc Hbad.
  apply subseteq_take in Hin. rewrite Array_sort_perm in Hin.
  apply elem_of_lookup_imap_1 in Hin as (i & c' & [= -> ->] & Hi).
  rewrite Hi in Hc. injection Hc as ->.
  destruct (decide (length c = length query)) as [E | E].
  - destruct Hbad as [-> | [Hbad | Hbad]].
    + apply similarity_invalid_candidate; auto.
    + congruence.
    + apply similarity_zero_candidate; assumption.
  - apply similarity_invalid_candidate; auto.
Qed.

Lemma topKSimilar_bad_candidates_witness :
  topKSimilar [1; 0; 0]%float [[1; 0]; [1; 0; 0]; [0; 0; 0]]%float 3
  = Ok [(1, 1%float); (0, neg_infinity); (2, neg_infinity)].
Proof.
  destruct (topKSimilar_bad_candidates [1; 0; 0]%float
              [[1; 0]; [1; 0; 0]; [0; 0; 0]]%float 3) as (out & H & _).
  - discriminate.
  - lia.
  - rewrite H. vm_compute in H. injection H as <-. reflexivity.
Defined.

(** * Further properties of the index *)

Section IndexSuccess.
Context {T : Type}.
Implicit Types (s : state T) (h : gmap loc (object T)).

Lemma read_numbers_mono h h' e v :
  h ⊆ h' -> read_numbers h e = Some v -> read_numbers h' e = Some v.
Proof.
  unfold read_numbers. intros Hsub H.
  destruct (h !! e) as [o|] eqn:E; [| discriminate].
  rewrite (lookup_weaken _ _ _ _ E Hsub). exact H.
Qed.

Lemma read_metadata_mono h h' l m :
  h ⊆ h' -> read_metadata h l = Some m -> read_metadata h' l = Some m.
Proof.
  unfold read_metadata. intros Hsub H.
  destruct (h !! l) as [o|] eqn:E; [| discriminate].
  rewrite (lookup_weaken _ _ _ _ E Hsub). exact H.
Qed.

Lemma read_item_mono h h' r it :
  h ⊆ h' -> read_item h r = Some it -> read_item h' r = Some it.
Proof.
  unfold read_item. intros Hsub H.
  destruct (h !! r) as [o|] eqn:E; [| discriminate].
  rewrite (lookup_weaken _ _ _ _ E Hsub).
  destruct o as [rs | i e md | v | m]; try discriminate.
  destruct (read_numbers h e) as [v|] eqn:Ev; [| discriminate].
  rewrite (read_numbers_mono _ _ _ _ Hsub Ev).
  destruct md as [l|]; [| exact H].
  destruct (read_metadata h l) as [m|] eqn:Em; [| discriminate].
  rewrite (read_metadata_mono _ _ _ _ Hsub Em). exact H.
Qed.

Lemma read_records_mono h h' rs items :
  h ⊆ h' -> mapM (read_item h) rs = Some items ->
  mapM (read_item h') rs = Some items.
Proof.
  rewrite !mapM_Some. intros Hsub H.
  eapply Forall2_impl; [exact H |].
  intros r it Hr. eapply read_item_mono; eassumption.
Qed.

Lemma read_items_mono h h' a items :
  h ⊆ h' -> read_items h a = Some items -> read_items h' a = Some items.
Proof.
  intros Hsub H. apply read_items_inv in H as (rs & _ & Ha & Hrs).
  unfold read_items, read_array. rewrite (lookup_weaken _ _ _ _ Ha Hsub). cbn.
  eapply read_records_mono; eassumption.
Qed.

Lemma insert_fresh_subseteq h (o : object T) : h ⊆ <[fresh (dom h) := o]> h.
Proof. apply insert_subseteq, fresh_free. Qed.

(** The record [index] builds for one item: the three objects are new, and
    the record reads as the item, its embedding and its metadata. *)
Lemma build_record_run s (item : T) (v : Embedding) (md : gmap string value) :
  exists l s',
    bind (alloc (NumberArray v)) (fun e =>
      bind (alloc (Metadata md)) (fun m => alloc (Item item e (Some m)))) s
    = Some (Returned l, s') /\
    this s' = this s /\ heap s ⊆ heap s' /\
    read_item (heap s') l = Some (IndexedItem.mk item v (Some md)).
Proof.
  set (h := heap s).
  set (l1 := fresh (dom h)). set (h1 := <[l1 := NumberArray v]> h).
  set (l2 := fresh (dom h1)). set (h2 := <[l2 := Metadata md]> h1).
  set (l3 := fresh (dom h2)). set (h3 := <[l3 := Item item l1 (Some l2)]> h2).
  exists l3, {| heap := h3; this := this s |}.
  split; [reflexivity |]. split; [reflexivity |].
  assert (H1 : h1 !! l1 = Some (NumberArray v)) by apply lookup_insert_eq.
  assert (H2 : h2 !! l2 = Some (Metadata md)) by apply lookup_insert_eq.
  assert (S12 : h1 ⊆ h2) by apply insert_fresh_subseteq.
  assert (S23 : h2 ⊆ h3) by apply insert_fresh_subseteq.
  split.
  - cbn [heap]. etransitivity; [apply insert_fresh_subseteq |].
    etransitivity; eassumption.
  - cbn [heap]. unfold read_item, read_numbers, read_metadata.
    unfold h3 at 1. rewrite lookup_insert_eq.
    rewrite (lookup_weaken _ _ _ _ (lookup_weaken _ _ _ _ H1 S12) S23).
    rewrite (lookup_weaken _ _ _ _ H2 S23). reflexivity.
Qed.

Lemma for_each_build_run (c : SearchConfig T) (results : list EmbeddingResult.t)
    (items : list T) :
  forall idx s,
  exists o s',
    for_each (fun idx item =>
                match results !! idx with
                | None => throw TypeError
                | Some r =>
                    bind (alloc (NumberArray (EmbeddingResult.embedding r))) (fun e =>
                    bind (alloc (Metadata (metadataExtractor c item))) (fun m =>
                    alloc (Item item e (Some m))))
                end) idx items s = Some (o, s') /\
    this s' = this s /\ heap s ⊆ heap s' /\
    (length items <= length (drop idx results) ->
     exists rs, o = Returned rs /\
       mapM (read_item (heap s')) rs =
       Some (zip_with (fun item r =>
                         IndexedItem.mk item (EmbeddingResult.embedding r)
                           (Some (metadataExtractor c item)))
               items (drop idx results))) /\
    (length (drop idx results) < length items -> o = Thrown TypeError).
Proof.
  induction items as [|item items IH]; intros idx s.
  - exists (Returned []), s. split; [reflexivity |]. split; [reflexivity |].
    split; [reflexivity |]. split.
    + intros _. exists []. split; reflexivity.
    + cbn [length]. lia.
  - cbn [for_each]. unfold bind at 1.
    destruct (results !! idx) as [r|] eqn:Er.
    + destruct (build_record_run s item (EmbeddingResult.embedding r)
                  (metadataExtractor c item)) as (l & s1 & Hrun & Hthis & Hsub & Hread).
      rewrite Hrun.
      destruct (IH (S idx) s1) as (o & s' & Hrest & Hthis' & Hsub' & Hok & Hshort).
      unfold bind at 1. rewrite Hrest.
      rewrite (drop_S _ _ _ Er). cbn [length zip_with].
      destruct o as [rs | x].
      * exists (Returned (l :: rs)), s'. split; [reflexivity |].
        split; [congruence |]. split; [etransitivity; eassumption |].
        split; [| intros Hlt; specialize (Hshort ltac:(lia)); discriminate Hshort].
        intros Hle. destruct (Hok ltac:(lia)) as (rs' & [= <-] & Hrs).
        exists (l :: rs). split; [reflexivity |].
        cbn [mapM]. rewrite (read_item_mono _ _ _ _ Hsub' Hread). cbn.
        rewrite Hrs. reflexivity.
      * exists (Thrown x), s'. split; [reflexivity |].
        split; [congruence |]. split; [etransitivity; eassumption |].
        split; [intros Hle; destruct (Hok ltac:(lia)) as (rs' & Hrs' & _);
                discriminate Hrs' |].
        intros Hlt. apply Hshort. lia.
    + exists (Thrown TypeError), s. split; [reflexivity |].
      split; [reflexivity |]. split; [reflexivity |].
      apply lookup_ge_None in Er. rewrite drop_ge by exact Er. cbn [length].
      split; [lia | reflexivity].
Qed.

(** The state in which [index] builds its records: the one it was called
    in, or, with [replace], that state with a new empty array. *)
Lemma index_prepare_run s (replace : bool) old :
  stored s = Some old ->
  exists sA,
    (if replace then bind (alloc (ItemArray [])) (fun l => set_indexedItems l)
     else ret tt) s = Some (Returned tt, sA) /\
    engine (this sA) = engine (this s) /\ config (this sA) = config (this s) /\
    heap s ⊆ heap sA /\
    stored sA = Some (if replace then [] else old) /\
    (if replace then heap s !! indexedItems (this sA) = None
     else indexedItems (this sA) = indexedItems (this s)).
Proof.
  intros Hst. destruct replace.
  - eexists. split; [reflexivity |]. cbn [this heap engine config].
    split; [reflexivity |]. split; [reflexivity |].
    split; [apply insert_fresh_subseteq |]. split; [| apply fresh_free].
    unfold stored, read_items, read_array. cbn [heap this indexedItems].
    rewrite lookup_insert_eq. reflexivity.
  - exists s. split; [reflexivity |]. auto.
Qed.

Lemma index_outcome max_arguments s (items : list T) (replace : bool)
    (results : list EmbeddingResult.t) old :
  stored s = Some old -> items <> [] ->
  embedBatch (engine (this s)) (map (textExtractor (config (this s))) items)
    = Ok results ->
  exists o s',
    index max_arguments items replace s = Some (o, s') /\
    engine (this s') = engine (this s) /\ config (this s') = config (this s) /\
    (length items <= length results -> length items <= max_arguments ->
     o = Returned tt /\
     stored s' =
       Some ((if replace then [] else old) ++
             zip_with (fun item r =>
                         IndexedItem.mk item (EmbeddingResult.embedding r)
                           (Some (metadataExtractor (config (this s)) item)))
               items results)%list) /\
    (length items <= length results -> max_arguments < length items ->
     o = Thrown RangeError /\ stored s' = Some (if replace then [] else old)) /\
    (length results < length items ->
     o = Thrown TypeError /\ stored s' = Some (if replace then [] else old)) /\
    (forall l ob, heap s !! l = Some ob ->
       replace = true \/ l <> indexedItems (this s) ->
       heap s' !! l = Some ob).
Proof.
  intros Hst Hne Hbatch.
  destruct (index_prepare_run s replace old Hst)
    as (sA & HA & HengA & HcfgA & HsubA & HstA & HlocA).
  assert (Hframe : forall l ob, heap s !! l = Some ob ->
            replace = true \/ l <> indexedItems (this s) ->
            l <> indexedItems (this sA)).
  { intros l ob Hl Hcond E. destruct replace.
    - rewrite <- E, Hl in HlocA. discriminate.
    - destruct Hcond as [? | Hcond]; [discriminate | congruence]. }
  destruct (for_each_build_run (config (this sA)) results items 0 sA)
    as (o & sB & HB & HthisB & HsubB & Hok & Hshort).
  rewrite drop_0 in Hok, Hshort.
  pose proof HstA as HstA'. unfold stored in HstA'.
  apply read_items_inv in HstA' as (rs0 & Hrs0 & Ha0 & Hitems0).
  assert (HstB : stored sB = Some (if replace then [] else old)).
  { unfold stored. rewrite HthisB. eapply read_items_mono; eassumption. }
  assert (Hrun : index max_arguments items replace s =
            match o with
            | Returned rs =>
                if (length rs <=? max_arguments)%nat then
                  Some (Returned tt,
                        {| heap := <[indexedItems (this sB) := ItemArray (rs0 ++ rs)]>
                                     (heap sB);
                           this := this sB |})
                else Some (Thrown RangeError, sB)
            | Thrown x => Some (Thrown x, sB)
            end).
  { unfold index. destruct items as [|item items']; [congruence |].
    cbn [length Nat.eqb]. unfold bind at 1. rewrite HA.
    unfold bind at 1, get_this at 1. rewrite HengA, HcfgA, Hbatch.
    unfold call, bind at 1, ret at 1. unfold bind at 1.
    rewrite HcfgA in HB. rewrite HB.
    destruct o as [rs | x]; [| reflexivity].
    unfold bind at 1, get_this at 1. unfold bind at 1, load at 1.
    unfold read_array. rewrite HthisB.
    rewrite (lookup_weaken _ _ _ _ Ha0 HsubB). rewrite <- HthisB.
    destruct (length rs <=? max_arguments)%nat; reflexivity. }
  assert (Hlen : forall rs, o = Returned rs -> length items <= length results ->
                 length rs = length items).
  { intros rs -> Hle. destruct (Hok Hle) as (rs' & [= <-] & Hrs).
    apply length_mapM in Hrs. rewrite Hrs, length_zip_with. lia. }
  assert (Hold : forall l ob, heap s !! l = Some ob -> heap sB !! l = Some ob).
  { intros l ob Hl.
    eapply lookup_weaken; [| exact HsubB]. eapply lookup_weaken; eassumption. }
  destruct o as [rs | x].
  - specialize (Hlen rs eq_refl).
    destruct (Nat.leb_spec (length rs) max_arguments) as [Hfit | Hover].
    + eexists _, _. split; [exact Hrun |]. cbn [this].
      split; [congruence |]. split; [congruence |].
      split; [| split; [| split]].
      * intros Hle _. split; [reflexivity |].
        destruct (Hok Hle) as (rs' & [= <-] & Hrs).
        unfold stored, read_items, read_array. cbn [heap this].
        rewrite lookup_insert_eq. cbn.
        assert (Hfree : free_or_array (heap sB) (indexedItems (this sB))).
        { right. exists rs0. rewrite HthisB. eapply lookup_weaken; eassumption. }
        apply mapM_Some. apply Forall2_app.
        -- apply mapM_Some. eapply read_records_frame; [| exact Hfree].
           eapply read_records_mono; eassumption.
        -- apply mapM_Some. eapply read_records_frame; [| exact Hfree].
           rewrite HcfgA in Hrs. exact Hrs.
      * intros Hle Hgt. specialize (Hlen Hle). lia.
      * intros Hlt. specialize (Hshort Hlt). discriminate Hshort.
      * intros l ob Hl Hcond. cbn [heap].
        rewrite lookup_insert_ne
          by (rewrite HthisB; intros E; exact (Hframe l ob Hl Hcond (eq_sym E))).
        exact (Hold l ob Hl).
    + exists (Thrown RangeError), sB. split; [exact Hrun |].
      split; [congruence |]. split; [congruence |].
      split; [| split; [| split]].
      * intros Hle Hmax. specialize (Hlen Hle). lia.
      * intros _ _. split; [reflexivity | exact HstB].
      * intros Hlt. specialize (Hshort Hlt). discriminate Hshort.
      * intros l ob Hl _. exact (Hold l ob Hl).
  - exists (Thrown x), sB. split; [exact Hrun |].
    split; [congruence |]. split; [congruence |].
    split; [| split; [| split]].
    + intros Hle _. destruct (Hok Hle) as (rs' & Hrs' & _). discriminate Hrs'.
    + intros Hle _. destruct (Hok Hle) as (rs' & Hrs' & _). discriminate Hrs'.
    + intros Hlt. split; [| exact HstB].
      injection (Hshort Hlt) as ->. reflexivity.
    + intros l ob Hl _. exact (Hold l ob Hl).
Qed.

(** X9. When the engine returns at least one result per item and the
    runtime accepts that many arguments in a call, [index] returns and the
    index then holds its previous items (none of them with [replace])
    followed by one record per item, in order: the item, the embedding of
    the result at the same position, and the extracted metadata.  When the
    batch has more items than the runtime accepts as arguments, [index]
    throws a [RangeError], and when the engine returns fewer results than
    items, a [TypeError]: either way it adds nothing.  In every case the
    engine and the configuration are unchanged, and so is every object of
    the store other than the index's own array (with [replace], that array
    too: a new one takes its place). *)
Theorem index_appends max_arguments s (items : list T) (replace : bool)
    (results : list EmbeddingResult.t) old :
  stored s = Some old -> items <> [] ->
  embedBatch (engine (this s)) (map (textExtractor (config (this s))) items)
    = Ok results ->
  exists o s',
    index max_arguments items replace s = Some (o, s') /\
    engine (this s') = engine (this s) /\ config (this s') = config (this s) /\
    (length items <= length results -> length items <= max_arguments ->
     o = Returned tt /\
     stored s' =
       Some ((if replace then [] else old) ++
             zip_with (fun item r =>
                         IndexedItem.mk item (EmbeddingResult.embedding r)
                           (Some (metadataExtractor (config (this s)) item)))
               items results)%list) /\
    (length items <= length results -> max_arguments < length items ->
     o = Thrown RangeError /\ stored s' = Some (if replace then [] else old)) /\
    (length results < length items ->
     o = Thrown TypeError /\ stored s' = Some (if replace then [] else old)) /\
    (forall l ob, heap s !! l = Some ob ->
       replace = true \/ l <> indexedItems (this s) ->
       heap s' !! l = Some ob).
Proof. exact (index_outcome max_arguments s items replace results old). Qed.

End IndexSuccess.

(** Two more items fit; with a runtime that accepts one argument only, the
    same call throws and the index keeps its three items. *)
Lemma index_appends_witness :
  (exists s',
     index example_max_arguments ["dddd"; "ee"] false example_index
       = Some (Returned tt, s') /\
     stored s' =
       Some (example_items ++
             [IndexedItem.mk "dddd" [4; 1]%float (Some ∅);
              IndexedItem.mk "ee" [2; 1]%float (Some ∅)])%list) /\
  (exists s',
     index 1 ["dddd"; "ee"] false example_index = Some (Thrown RangeError, s') /\
     stored s' = Some example_items).
Proof.
  split.
  - destruct (index_appends example_max_arguments example_index ["dddd"; "ee"] false
                (map example_embedding ["dddd"; "ee"]) example_items)
      as (o & s' & H1 & _ & _ & H2 & _).
    + vm_compute. reflexivity.
    + discriminate.
    + reflexivity.
    + destruct (H2 ltac:(cbn; lia) ltac:(cbv; lia)) as [-> H3].
      exists s'. split; [exact H1 | exact H3].
  - destruct (index_appends 1 example_index ["dddd"; "ee"] false
                (map example_embedding ["dddd"; "ee"]) example_items)
      as (o & s' & H1 & _ & _ & _ & H2 & _).
    + vm_compute. reflexivity.
    + discriminate.
    + reflexivity.
    + destruct (H2 ltac:(cbn; lia) ltac:(cbn; lia)) as [-> H3].
      exists s'. split; [exact H1 | exact H3].
Defined.

(** ** A new instance *)

Section NewInstance.
Context {T : Type}.
Implicit Types (s : state T) (h : gmap loc (object T)).

Lemma constructor_stored (String : T -> string) (engine : SemanticEngine)
    (config : PartialSearchConfig T) h :
  stored (constructor String engine config h) = Some [].
Proof.
  unfold stored, constructor, read_items, read_array. cbn [heap this indexedItems].
  rewrite lookup_insert_eq. reflexivity.
Qed.

(** X10. [createSemanticSearch] rejects an empty item list with
    [INVALID_INPUT].  When the engine embeds the batch (one result per item,
    at least) and the runtime accepts one argument per item in a call, it
    returns an instance with the default configuration completed by the
    given one, holding exactly one record per item, in order; with more
    items than the runtime accepts as arguments it throws a [RangeError]
    and returns no instance.  Every object already in the store is left as
    it was. *)
Theorem createSemanticSearch_indexes max_arguments (String : T -> string)
    (engine : SemanticEngine) (items : list T) (config_ : PartialSearchConfig T) h :
  (items = [] ->
   exists e s, createSemanticSearch max_arguments String engine items config_ h
               = Some (Thrown (Semantic e), s) /\ code e = INVALID_INPUT) /\
  (forall results,
     items <> [] ->
     embedBatch engine (map (default String (textExtractor_opt config_)) items)
       = Ok results ->
     length items <= length results ->
     (length items <= max_arguments ->
      exists self s,
        createSemanticSearch max_arguments String engine items config_ h
          = Some (Returned self, s) /\
        self = this s /\
        topK (config self) = default 10%Z (topK_opt config_) /\
        threshold (config self) = default 0%float (threshold_opt config_) /\
        h ⊆ heap s /\
        stored s =
          Some (zip_with (fun item r =>
                            IndexedItem.mk item (EmbeddingResult.embedding r)
                              (Some (default (fun _ => ∅)
                                       (metadataExtractor_opt config_) item)))
                  items results)) /\
     (max_arguments < length items ->
      exists s,
        createSemanticSearch max_arguments String engine items config_ h
          = Some (Thrown RangeError, s) /\
        h ⊆ heap s)).
Proof.
  split.
  - intros ->. eexists _, _. split; reflexivity.
  - intros results Hne Hbatch Hlen. unfold createSemanticSearch.
    set (s0 := constructor String engine config_ h).
    destruct (index_outcome max_arguments s0 items false results []
                (constructor_stored _ _ _ _) Hne Hbatch)
      as (o & s & Hrun & Heng & Hcfg & Hok & Hover & _ & Hframe).
    assert (Hsub : h ⊆ heap s).
    { apply map_subseteq_spec. intros l ob Hl. apply Hframe.
      + unfold s0, constructor. cbn [heap].
        rewrite lookup_insert_ne; [exact Hl |].
        eapply fresh_ne. exact Hl.
      + right. unfold s0, constructor. cbn [this indexedItems].
        intros E. symmetry in E. revert E. eapply fresh_ne. exact Hl. }
    split.
    + intros Hmax. destruct (Hok Hlen Hmax) as [-> Hst]. rewrite Hrun.
      exists (this s), s. split; [reflexivity |]. split; [reflexivity |].
      rewrite Hcfg. split; [reflexivity |]. split; [reflexivity |].
      split; [exact Hsub | exact Hst].
    + intros Hmax. destruct (Hover Hlen Hmax) as [-> _]. rewrite Hrun.
      exists s. split; [reflexivity | exact Hsub].
Qed.

End NewInstance.

(** ** Snapshots *)

Section Snapshots.
Context {T : Type}.
Implicit Types (s : state T) (h : gmap loc (object T)).

Lemma clear_run s :
  clear s =
  Some (Returned tt,
        {| heap := <[fresh (dom (heap s)) := ItemArray []]> (heap s);
           this := {| engine := engine (this s);
                      indexedItems := fresh (dom (heap s));
                      config := config (this s) |} |}).
Proof. reflexivity. Qed.

(** X11. A snapshot survives [clear]: after [exported = exportIndex()] and
    [clear()] the index is empty, the exported array still holds the items,
    and [importIndex(exported)] brings back exactly the items the index
    held, with the same engine and configuration. *)
Theorem export_clear_import_round_trip s items :
  stored s = Some items ->
  exists exported s1 s2 s3,
    exportIndex s = Some (Returned exported, s1) /\
    clear s1 = Some (Returned tt, s2) /\
    stored s2 = Some [] /\
    read_items (heap s2) exported = Some items /\
    importIndex exported s2 = Some (Returned tt, s3) /\
    stored s3 = Some items /\
    engine (this s3) = engine (this s) /\ config (this s3) = config (this s).
Proof.
  intros Hst. unfold stored in Hst.
  pose proof (read_items_inv _ _ _ Hst) as (rs & Hrs & Ha & Hitems).
  set (h := heap s).
  set (l1 := fresh (dom h)). set (h1 := <[l1 := ItemArray rs]> h).
  set (l2 := fresh (dom h1)). set (h2 := <[l2 := @ItemArray T []]> h1).
  assert (S01 : h ⊆ h1) by apply insert_fresh_subseteq.
  assert (S12 : h1 ⊆ h2) by apply insert_fresh_subseteq.
  assert (H1 : h2 !! l1 = Some (ItemArray rs)).
  { eapply lookup_weaken; [apply lookup_insert_eq | exact S12]. }
  assert (Hexp : read_items h2 l1 = Some items).
  { unfold read_items, read_array. rewrite H1. cbn.
    eapply read_records_mono; [| exact Hitems]. etransitivity; eassumption. }
  set (s1 := {| heap := h1; this := this s |}).
  set (s2 := {| heap := h2;
                this := {| engine := engine (this s);
                           indexedItems := l2;
                           config := config (this s) |} |}).
  set (l3 := fresh (dom h2)).
  set (s3 := {| heap := <[l3 := ItemArray rs]> h2;
                this := {| engine := engine (this s);
                           indexedItems := l3;
                           config := config (this s) |} |}).
  exists l1, s1, s2, s3.
  split; [exact (exportIndex_run s rs Hrs) |].
  split; [exact (clear_run s1) |].
  split; [unfold stored, read_items, read_array, s2, h2; cbn [heap this indexedItems];
          rewrite lookup_insert_eq; reflexivity |].
  split; [exact Hexp |].
  split; [apply (importIndex_run s2 l1 rs); unfold read_array, s2; cbn [heap];
          rewrite H1; reflexivity |].
  split; [| split; reflexivity].
  unfold stored, s3. cbn [heap this indexedItems].
  apply read_items_new; [| apply fresh_free_or_array].
  eapply read_records_mono; [| exact Hitems]. etransitivity; eassumption.
Qed.

End Snapshots.

Lemma export_clear_import_round_trip_witness :
  exists exported s1 s2 s3,
    exportIndex example_index = Some (Returned exported, s1) /\
    clear s1 = Some (Returned tt, s2) /\
    stored s2 = Some [] /\
    importIndex exported s2 = Some (Returned tt, s3) /\
    stored s3 = Some example_items.
Proof.
  destruct (export_clear_import_round_trip example_index example_items)
    as (exported & s1 & s2 & s3 & H1 & H2 & H3 & _ & H4 & H5 & _).
  - vm_compute. reflexivity.
  - exists exported, s1, s2, s3. auto.
Defined.

(** ** [search]: errors and results *)

Lemma topKSimilar_error_code (query : Embedding) (candidates : list Embedding)
    (k : Z) e :
  topKSimilar query candidates k = Err e -> code e = INVALID_INPUT.
Proof.
  unfold topKSimilar. destruct query as [|x query]; [intros [= <-]; reflexivity |].
  cbn [validateEmbedding length Nat.eqb rbind].
  destruct (length candidates =? 0)%nat; [discriminate |].
  destruct (k <=? 0)%Z; [intros [= <-]; reflexivity | discriminate].
Qed.

Lemma topKSimilar_invalid (query : Embedding) (candidates : list Embedding) (k : Z) :
  query = [] \/ (candidates <> [] /\ (k <= 0)%Z) ->
  exists e, topKSimilar query candidates k = Err e /\ code e = INVALID_INPUT.
Proof.
  unfold topKSimilar. intros H.
  destruct query as [|x query]; [eexists; split; reflexivity |].
  destruct H as [H | [Hc Hk]]; [discriminate |].
  cbn [validateEmbedding length Nat.eqb rbind].
  destruct candidates as [|c cs]; [congruence |]. cbn [length Nat.eqb].
  apply Z.leb_le in Hk. rewrite Hk. eexists; split; reflexivity.
Qed.

Lemma topKSimilar_returned (query : Embedding) (candidates : list Embedding)
    (k : Z) out :
  topKSimilar query candidates k = Ok out ->
  NoDup out.*1 /\ length out <= Z.to_nat k /\ length out <= length candidates.
Proof.
  unfold topKSimilar. intros H.
  destruct (validateEmbedding query "query"); [| discriminate]. cbn [rbind] in H.
  destruct (length candidates =? 0)%nat.
  { injection H as <-. split; [constructor | cbn; lia]. }
  destruct (Z.leb_spec k 0) as [? | Hk]; [discriminate |].
  injection H as <-. rewrite slice_prefix by lia.
  rewrite Array_sort_length, length_imap.
  split; [| rewrite length_take, Array_sort_length, length_imap; lia].
  rewrite fmap_take. eapply sublist_NoDup; [| apply sublist_take].
  rewrite Array_sort_perm, imap_indices. apply NoDup_seq.
Qed.

Section SearchFacts.
Context {T : Type}.
Implicit Types (s : state T) (items : list (IndexedItem.t T)).

Lemma search_outcome s items (query : string) (o : PartialSearchConfig T) :
  stored s = Some items ->
  search query o s =
  Some (match items with
        | [] => Thrown (Semantic empty_index_error)
        | _ :: _ =>
            match embed (engine (this s)) query with
            | Err e => Thrown (Semantic e)
            | Ok qr =>
                match topKSimilar (EmbeddingResult.embedding qr)
                        (map IndexedItem.embedding items)
                        (topK (merge (config (this s)) o)) with
                | Err e => Thrown (Semantic e)
                | Ok tk =>
                    search_loop items (threshold (merge (config (this s)) o)) tk 1 []
                end
            end
        end, s).
Proof.
  intros Hst. unfold search, bind, get_this, load.
  unfold stored in Hst. rewrite Hst.
  destruct items as [|it items]; [reflexivity |]. cbn [length Nat.eqb].
  destruct (embed (engine (this s)) query) as [qr | e]; [| reflexivity].
  cbn [call ret]. destruct (topKSimilar _ _ _) as [tk | e]; reflexivity.
Qed.

Lemma topKSimilar_indices_in_range items (query : Embedding) (k : Z) tk :
  topKSimilar query (map IndexedItem.embedding items) k = Ok tk ->
  Forall (fun p : nat * float => p.1 < length items) tk.
Proof.
  intros Htk. rewrite Forall_forall. intros [idx sc] Hin.
  destruct (topKSimilar_entries _ _ _ _ Htk idx sc Hin) as (c & Hc & _).
  apply lookup_lt_Some in Hc. rewrite length_map in Hc. exact Hc.
Qed.

(** X12. [search] never changes the index, and its failures come in this
    order: an empty index throws the empty-index [INVALID_INPUT] without
    consulting the engine; otherwise an error of [embed] is rethrown as it
    is; otherwise an empty query embedding or an effective [topK <= 0]
    throws [INVALID_INPUT]; otherwise [search] returns a result list. *)
Theorem search_failures s items (query : string) (o : PartialSearchConfig T) :
  stored s = Some items ->
  exists r,
    search query o s = Some (r, s) /\
    (items = [] -> r = Thrown (Semantic empty_index_error)) /\
    (items <> [] -> forall e,
       embed (engine (this s)) query = Err e -> r = Thrown (Semantic e)) /\
    (items <> [] -> forall qr,
       embed (engine (this s)) query = Ok qr ->
       (EmbeddingResult.embedding qr = [] \/
        (topK (merge (config (this s)) o) <= 0)%Z ->
        exists e, r = Thrown (Semantic e) /\ code e = INVALID_INPUT) /\
       (EmbeddingResult.embedding qr <> [] ->
        (0 < topK (merge (config (this s)) o))%Z ->
        exists results, r = Returned results)).
Proof.
  intros Hst. eexists. split; [apply (search_outcome s items query o Hst) |].
  destruct items as [|it items].
  - split; [reflexivity |]. split; [congruence |]. congruence.
  - split; [discriminate |]. split.
    + intros _ e ->. reflexivity.
    + intros _ qr ->. split.
      * intros Hbad.
        destruct (topKSimilar_invalid (EmbeddingResult.embedding qr)
                    (map IndexedItem.embedding (it :: items))
                    (topK (merge (config (this s)) o))) as (e & -> & He).
        -- destruct Hbad as [? | Hk]; [left; assumption |].
           right. split; [discriminate | exact Hk].
        -- eauto.
      * intros Hq Hk.
        rewrite (topKSimilar_run _ _ _ Hq Hk).
        pose proof (topKSimilar_run _ (map IndexedItem.embedding (it :: items)) _ Hq Hk)
          as Htk.
        destruct (search_loop_spec (it :: items) (threshold (merge (config (this s)) o))
                    _ 1 [] (topKSimilar_indices_in_range _ _ _ _ Htk))
          as (new & Hrun & _).
        rewrite Hrun. eauto.
Qed.

End SearchFacts.

Lemma filter_sublist {A} (P : A -> bool) (l : list A) :
  List.filter P l `sublist_of` l.
Proof.
  induction l as [|x l IH]; cbn [List.filter]; [constructor |].
  destruct (P x); [apply sublist_skip | apply sublist_cons]; exact IH.
Qed.

Lemma Forall2_and_Forall_r {A B} (R : A -> B -> Prop) (Q : B -> Prop)
    (l : list A) (k : list B) :
  Forall2 R l k -> Forall Q k -> Forall2 (fun a b => R a b /\ Q b) l k.
Proof.
  induction 1 as [|a b l k Hab _ IH]; intros HQ; [constructor |].
  apply Forall_cons in HQ as [Hb HQ]. constructor; auto.
Qed.

Section SearchResults.
Context {T : Type}.
Implicit Types (s : state T) (items : list (IndexedItem.t T)).

Lemma search_returned_spec s s' items (query : string) (o : PartialSearchConfig T)
    results :
  stored s = Some items ->
  search query o s = Some (Returned results, s') ->
  s' = s /\
  exists qr,
    embed (engine (this s)) query = Ok qr /\
    length results <= Z.to_nat (topK (merge (config (this s)) o)) /\
    length results <= length items /\
    map SearchResult.rank results = seq 1 (length results) /\
    exists idxs,
      NoDup idxs /\
      Forall2 (fun r idx =>
                 exists it, items !! idx = Some it /\
                   SearchResult.item r = IndexedItem.item it /\
                   SearchResult.score r =
                     similarity (EmbeddingResult.embedding qr) (IndexedItem.embedding it) /\
                   (SearchResult.score r <? threshold (merge (config (this s)) o))%float
                     = false)
        results idxs.
Proof.
  intros Hst H. rewrite (search_outcome s items query o Hst) in H.
  injection H as H <-. split; [reflexivity |].
  destruct items as [|it0 items0]; [discriminate |].
  destruct (embed (engine (this s)) query) as [qr | e]; [| discriminate].
  exists qr. split; [reflexivity |].
  destruct (topKSimilar _ _ _) as [tk | e] eqn:Htk; [| discriminate].
  set (items := it0 :: items0) in *.
  destruct (topKSimilar_returned _ _ _ _ Htk) as (Hnd & Hk & Hn).
  rewrite length_map in Hn.
  destruct (search_loop_spec items (threshold (merge (config (this s)) o)) tk 1 []
              (topKSimilar_indices_in_range _ _ _ _ Htk)) as (new & Hrun & Hrank & Hall).
  assert (Hnew : new = results).
  { cbn [merge threshold app] in Hrun. rewrite Hrun in H. injection H as <-.
    reflexivity. }
  subst new. clear Hrun H.
  set (survivors := List.filter (kept (threshold (merge (config (this s)) o))) tk) in *.
  assert (Hsub : survivors `sublist_of` tk) by apply filter_sublist.
  assert (Hlen : length results = length survivors)
    by (eapply Forall2_length; exact Hall).
  pose proof (sublist_length _ _ Hsub) as Hle.
  assert (Hk' : length tk <= Z.to_nat (topK (merge (config (this s)) o))) by exact Hk.
  split; [lia |]. split; [lia |]. split; [exact Hrank |].
  exists survivors.*1. split.
  - eapply sublist_NoDup; [exact Hnd |]. apply fmap_sublist. exact Hsub.
  - apply Forall2_fmap_r.
    assert (HQ : Forall (fun p : nat * float =>
                   kept (threshold (merge (config (this s)) o)) p = true /\
                   exists c, map IndexedItem.embedding items !! p.1 = Some c /\
                             p.2 = similarity (EmbeddingResult.embedding qr) c) survivors).
    { rewrite Forall_forall. intros [idx sc] Hin.
      apply list_elem_of_In, filter_In in Hin as [Hin Hkept].
      split; [exact Hkept |].
      apply (topKSimilar_entries _ _ _ _ Htk). apply list_elem_of_In. exact Hin. }
    eapply Forall2_impl; [exact (Forall2_and_Forall_r _ _ _ _ Hall HQ) |].
    intros r [idx sc] [[Hsc (it & Hit & Hitem)] [Hkept (c & Hc & Hsim)]].
    cbn [fst snd] in *. exists it. split; [exact Hit |]. split; [exact Hitem |].
    rewrite lookup_map, Hit in Hc. injection Hc as <-.
    split; [congruence |].
    rewrite Hsc. unfold kept in Hkept. cbn [snd] in Hkept.
    apply negb_true_iff. exact Hkept.
Qed.

(** X13. Whenever [search] returns, the index is unchanged and the results
    are at most [topK] and at most as many as the stored items; their ranks
    are 1, 2, 3, ...; and they stand for distinct stored records, each with
    that record's item, the similarity between the query embedding and that
    record's embedding as score, and a score not below the threshold. *)
Theorem search_results s s' items (query : string) (o : PartialSearchConfig T)
    results :
  stored s = Some items ->
  search query o s = Some (Returned results, s') ->
  s' = s /\
  exists qr,
    embed (engine (this s)) query = Ok qr /\
    length results <= Z.to_nat (topK (merge (config (this s)) o)) /\
    length results <= length items /\
    map SearchResult.rank results = seq 1 (length results) /\
    exists idxs,
      NoDup idxs /\
      Forall2 (fun r idx =>
                 exists it, items !! idx = Some it /\
                   SearchResult.item r = IndexedItem.item it /\
                   SearchResult.score r =
                     similarity (EmbeddingResult.embedding qr) (IndexedItem.embedding it) /\
                   (SearchResult.score r <? threshold (merge (config (this s)) o))%float
                     = false)
        results idxs.
Proof. exact (search_returned_spec s s' items query o results). Qed.

Lemma searchWithFilter_run s items (query : string)
    (filter : gmap string value -> bool) (o : PartialSearchConfig T) :
  stored s = Some items ->
  exists r s1 s',
    searchWithFilter query filter o s = Some (r, s') /\
    stored s1 =
      Some (List.filter (fun it => filter (default ∅ (IndexedItem.metadata it))) items) /\
    engine (this s1) = engine (this s) /\ config (this s1) = config (this s) /\
    search query o s1 = Some (r, s1) /\
    this s' = this s /\ stored s' = Some items.
Proof.
  intros Hst. pose proof Hst as Hst'. unfold stored in Hst'.
  apply read_items_inv in Hst' as (rs & Hrs & Ha & Hitems).
  destruct (array_filter_spec filter (heap s) rs items Hitems) as (kept & Hk & Hkept).
  set (l := fresh (dom (heap s))).
  set (s1 := {| heap := <[l := ItemArray kept]> (heap s);
                this := {| engine := engine (this s);
                           indexedItems := l;
                           config := config (this s) |} |}).
  assert (Hst1 : stored s1 =
            Some (List.filter (fun it => filter (default ∅ (IndexedItem.metadata it))) items)).
  { unfold stored, s1. cbn [heap this indexedItems].
    apply read_items_new; [exact Hkept | apply fresh_free_or_array]. }
  pose proof (search_outcome s1 _ query o Hst1) as Hr.
  eexists _, s1,
    {| heap := heap s1;
       this := {| engine := engine (this s1);
                  indexedItems := indexedItems (this s);
                  config := config (this s1) |} |}.
  split.
  { unfold searchWithFilter, bind, get_this, load, alloc, set_indexedItems, try_finally.
    rewrite Hrs. cbn [mbind option_bind]. rewrite Hk. cbn [heap this].
    fold l. fold s1. rewrite Hr. reflexivity. }
  split; [exact Hst1 |]. split; [reflexivity |]. split; [reflexivity |].
  split; [exact Hr |]. split; [cbn; apply this_eta |].
  unfold stored. cbn [heap this indexedItems s1].
  apply read_items_frame; [exact Hst | eapply fresh_ne; exact Ha | apply fresh_free_or_array].
Qed.

(** X14. Every result [searchWithFilter] returns is a stored item whose
    metadata (the empty record when it has none) satisfies the predicate,
    and there are no more results than such items. *)
Theorem searchWithFilter_results s s' items (query : string)
    (filter : gmap string value -> bool) (o : PartialSearchConfig T) results :
  stored s = Some items ->
  searchWithFilter query filter o s = Some (Returned results, s') ->
  length results <=
    length (List.filter (fun it => filter (default ∅ (IndexedItem.metadata it))) items) /\
  Forall (fun r => exists it, it ∈ items /\
                     filter (default ∅ (IndexedItem.metadata it)) = true /\
                     SearchResult.item r = IndexedItem.item it) results.
Proof.
  intros Hst H.
  destruct (searchWithFilter_run s items query filter o Hst)
    as (r & s1 & s2 & Hrun & Hst1 & _ & _ & Hsearch & _).
  rewrite Hrun in H. injection H as -> <-.
  destruct (search_returned_spec s1 s1 _ query o results Hst1 Hsearch)
    as (_ & qr & _ & _ & Hlen & _ & idxs & _ & Hall).
  split; [exact Hlen |].
  rewrite Forall_forall. intros r Hr.
  apply list_elem_of_lookup_1 in Hr as [i Hi].
  destruct (Forall2_lookup_l _ _ _ _ _ Hall Hi) as (idx & _ & it & Hit & Hitem & _).
  apply list_elem_of_lookup_2 in Hit.
  apply list_elem_of_In, filter_In in Hit as [Hin Hf].
  exists it. split; [apply list_elem_of_In; exact Hin |]. auto.
Qed.

(** X15. With a predicate every stored item satisfies (the always-true one
    in particular), [searchWithFilter] returns or throws exactly what
    [search] does, and leaves the index as it was. *)
Theorem searchWithFilter_all s items (query : string)
    (filter : gmap string value -> bool) (o : PartialSearchConfig T) :
  stored s = Some items ->
  Forall (fun it => filter (default ∅ (IndexedItem.metadata it)) = true) items ->
  exists r s',
    searchWithFilter query filter o s = Some (r, s') /\
    search query o s = Some (r, s) /\
    this s' = this s /\ stored s' = Some items.
Proof.
  intros Hst Hall.
  destruct (searchWithFilter_run s items query filter o Hst)
    as (r & s1 & s' & Hrun & Hst1 & Heng & Hcfg & Hsearch & Hthis & Hst').
  assert (Hfilter : List.filter (fun it => filter (default ∅ (IndexedItem.metadata it)))
                      items = items).
  { clear -Hall. induction Hall as [|it items Hit _ IH]; [reflexivity |].
    cbn [List.filter]. rewrite Hit, IH. reflexivity. }
  rewrite Hfilter in Hst1.
  exists r, s'. split; [exact Hrun |]. split; [| split; assumption].
  rewrite (search_outcome s1 items query o Hst1) in Hsearch.
  rewrite (search_outcome s items query o Hst).
  rewrite Heng, Hcfg in Hsearch. injection Hsearch as <-. reflexivity.
Qed.

End SearchResults.

Lemma search_results_witness :
  exists results,
    search "ab" example_override example_index = Some (Returned results, example_index) /\
    length results <= 3.
Proof.
  destruct (search "ab" example_override example_index) as [[[results | x] s'] |] eqn:E;
    try (vm_compute in E; discriminate E).
  destruct (search_results example_index s' example_items "ab" example_override results)
    as (-> & qr & _ & _ & Hlen & _).
  - vm_compute. reflexivity.
  - exact E.
  - exists results. split; [reflexivity | exact Hlen].
Defined.

Lemma searchWithFilter_all_witness :
  exists r s',
    searchWithFilter "ab" (fun _ => true) example_override example_index = Some (r, s') /\
    search "ab" example_override example_index = Some (r, example_index).
Proof.
  destruct (searchWithFilter_all example_index example_items "ab" (fun _ => true)
              example_override) as (r & s' & H1 & H2 & _).
  - vm_compute. reflexivity.
  - repeat constructor.
  - exists r, s'. auto.
Defined.

Lemma searchWithFilter_results_witness :
  exists results s',
    searchWithFilter "ab" (fun _ => true) example_override example_index
      = Some (Returned results, s') /\
    length results <= 3.
Proof.
  destruct (searchWithFilter "ab" (fun _ => true) example_override example_index)
    as [[[results | x] s'] |] eqn:E; try (vm_compute in E; discriminate E).
  destruct (searchWithFilter_results example_index s' example_items "ab"
              (fun _ => true) example_override results) as [Hlen _].
  - vm_compute. reflexivity.
  - exact E.
  - exists results, s'. split; [reflexivity | exact Hlen].
Defined.

(** ** [getStats] *)

Section GetStatsFacts.
Context {T : Type}.
Implicit Types (s : state T) (items : list (IndexedItem.t T)).

Lemma first_dimensions_spec (h : gmap loc (object T)) (rs : list loc) items :
  mapM (read_item h) rs = Some items ->
  first_dimensions h rs =
  Some (length (default [] (IndexedItem.embedding <$> head items))).
Proof.
  rewrite mapM_Some. intros H. unfold first_dimensions.
  destruct H as [|r it rs items Hr _]; [reflexivity |].
  cbn [lookup list_lookup head fmap option_fmap option_map default].
  unfold read_item in Hr.
  destruct (h !! r) as [[? | i e md | ? | ?] |]; try discriminate.
  destruct (read_numbers h e) as [v|]; [| discriminate]. cbn in Hr.
  destruct (match md with Some l => Some <$> read_metadata h l | None => Some None end)
    as [m|]; [| discriminate].
  cbn in Hr. injection Hr as <-. reflexivity.
Qed.

(** X16. [getStats] changes nothing and reports the number of stored items
    and the length of the first stored embedding (0 for an empty index);
    the memory estimate is computed from 8 bytes per component, in KB below
    1,048,576 bytes and in MB from there on.  Right after [clear()] it
    reports 0 items, 0 dimensions and "0.00 KB". *)
Theorem getStats_reports s :
  (forall items, stored s = Some items ->
     exists st,
       getStats s = Some (Returned st, s) /\
       itemCount st = length items /\
       dimensions st = length (default [] (IndexedItem.embedding <$> head items)) /\
       let totalBytes := (N.of_nat (itemCount st) * N.of_nat (dimensions st) * 8)%N in
       memoryEstimate st =
         if (totalBytes <? 1048576)%N then toFixed2 totalBytes 1024 +:+ " KB"
         else toFixed2 totalBytes 1048576 +:+ " MB") /\
  (exists s',
     clear s = Some (Returned tt, s') /\
     getStats s' =
       Some (Returned {| itemCount := 0; dimensions := 0; memoryEstimate := "0.00 KB" |},
             s')).
Proof.
  split.
  - intros items Hst. unfold stored in Hst.
    apply read_items_inv in Hst as (rs & Hrs & _ & Hitems).
    eexists. split.
    + unfold getStats, bind, get_this, load. rewrite Hrs.
      rewrite (first_dimensions_spec _ _ _ Hitems). reflexivity.
    + cbn [itemCount dimensions memoryEstimate].
      split; [apply (length_mapM _ _ _ Hitems) |]. split; reflexivity.
  - eexists. split; [apply clear_run |].
    unfold getStats, bind, get_this, load, read_array.
    cbn [heap this indexedItems]. rewrite lookup_insert_eq. reflexivity.
Qed.

End GetStatsFacts.

Example getStats_one_item_ex :
  toFixed2 (1 * 384 * 8) 1024 +:+ " KB" = "3.00 KB".
Proof. vm_compute. reflexivity. Qed.

Example getStats_400_items_ex :
  toFixed2 (400 * 384 * 8) (1024 * 1024) +:+ " MB" = "1.17 MB".
Proof. vm_compute. reflexivity. Qed.

Example getStats_example_index_ex :
  getStats example_index
  = Some (Returned {| itemCount := 3; dimensions := 2; memoryEstimate := "0.05 KB" |},
          example_index).
Proof. vm_compute. reflexivity. Qed.

Lemma search_failures_witness :
  search "" no_override example_index
  = Some (Thrown (Semantic (mkSemanticError INVALID_INPUT
                              "Text must be a non-empty string" None)),
          example_index).
Proof.
  destruct (search_failures example_index example_items "" no_override)
    as (r & Hrun & _ & Hembed & _).
  - vm_compute. reflexivity.
  - rewrite Hrun. f_equal. f_equal. apply Hembed; [discriminate | reflexivity].
Defined.

(** ** Overrides of the extractors *)

Section Overrides.
Context {T : Type}.
Implicit Types (s : state T).

(** X17. A search reads only [topK] and [threshold] from the override
    configuration: two overrides that agree on these two fields give the
    same [search], [findSimilar] and [searchWithFilter], so an overriding
    [textExtractor] or [metadataExtractor] has no effect ([findSimilar]
    extracts the text with the stored extractor). *)
Theorem override_extractors_ignored s (o o' : PartialSearchConfig T)
    (query : string) (item : T) (filter : gmap string value -> bool) :
  topK_opt o = topK_opt o' -> threshold_opt o = threshold_opt o' ->
  search query o s = search query o' s /\
  findSimilar item o s = findSimilar item o' s /\
  searchWithFilter query filter o s = searchWithFilter query filter o' s.
Proof.
  intros Hk Ht.
  assert (Hsearch : forall q, search q o = search q o').
  { intros q. unfold search, merge. cbn [topK threshold]. rewrite Hk, Ht. reflexivity. }
  split; [rewrite Hsearch; reflexivity |].
  split.
  - unfold findSimilar, bind, get_this. rewrite Hsearch. reflexivity.
  - unfold searchWithFilter, bind, get_this, load, alloc, set_indexedItems, try_finally.
    destruct (_ ≫= _) as [kept|]; [| reflexivity].
    rewrite Hsearch. reflexivity.
Qed.

End Overrides.

Lemma override_extractors_ignored_witness :
  search "ab" no_override example_index =
  search "ab" {| topK_opt := None; threshold_opt := None;
                 textExtractor_opt := Some (fun _ => "zzz");
                 metadataExtractor_opt := None |} example_index.
Proof.
  apply (override_extractors_ignored example_index no_override
           {| topK_opt := None; threshold_opt := None;
              textExtractor_opt := Some (fun _ : string => "zzz");
              metadataExtractor_opt := None |} "ab" "x" (fun _ => true));
    reflexivity.
Defined.
